(** * Verification of the S3 synchronisation engine (src/s3-v2.js)

    A shallow embedding of [S3SyncManager] and [S3MultipartUpload]:
    snapshots are finite maps from record id to record, the change queue is
    a list, and the asynchronous [performSync] is a resumable computation
    whose suspension points are the two [await]s of the source. *)

From Stdlib Require Import ZArith Ascii String List Lia.
From stdpp Require Import gmap strings list fin_maps.

Local Open Scope Z_scope.

(** ** Data model *)

(** A record as the merge and the diff read it: [change.id],
    [change.timestamp], [change.deviceId]; everything else the caller put
    in the object travels along as [payload]. *)
Record change : Type := Change {
  id : string;
  payload : string;
  timestamp : Z;
  deviceId : string
}.

Global Instance change_eq_dec : EqDecision change.
Proof. solve_decision. Defined.

(** A state ([remoteState], [mergedState], the diff): a plain JS object
    used as a map from record id to record; the map holds its own keys. *)
Abbreviation snapshot := (gmap string change).

(** JS [a > b] on strings: lexicographic order on the code units. *)
Definition str_gt (a b : string) : bool := String.ltb b a.

(** ** Property access on plain objects

    [remoteState], [mergedState] and the diff are plain objects: what
    [o[k]] finds and what [o[k] = v] does also depends on the members every
    plain object inherits from [Object.prototype]. The map of a snapshot
    holds the object's own keys. *)

(** The members of [Object.prototype]. *)
Definition Object_prototype_keys : list string :=
  ["constructor"; "__defineGetter__"; "__defineSetter__"; "hasOwnProperty";
   "__lookupGetter__"; "__lookupSetter__"; "isPrototypeOf";
   "propertyIsEnumerable"; "toString"; "valueOf"; "__proto__";
   "toLocaleString"].

Definition inherited (k : string) : bool :=
  existsb (String.eqb k) Object_prototype_keys.

(** What [o[k]] evaluates to: the record under an own key, an inherited
    member (a function, or [Object.prototype] itself for "__proto__":
    truthy, and without a [timestamp]), or [undefined]. *)
Inductive property : Type :=
| Undefined
| Inherited
| Own (r : change).

Definition js_get (o : snapshot) (k : string) : property :=
  match o !! k with
  | Some r => Own r
  | None => if inherited k then Inherited else Undefined
  end.

(** What [o[k] = v] does: it writes the own key, creating it if need be,
    except at "__proto__" when that is not an own key: there the inherited
    setter runs, which replaces the prototype and adds no own key. *)
Definition js_set (o : snapshot) (k : string) (v : change) : snapshot :=
  match o !! k with
  | Some _ => <[k := v]> o
  | None => if String.eqb k "__proto__" then o else <[k := v]> o
  end.

(** ** S3SyncManager.mergeChanges (lines 57-78) *)

(** One iteration of [for (const change of localChanges)]. The decision
    reads [remoteState], never [merged]; [baseVersion] is read and unused.
    An inherited member is truthy and its [timestamp] is [undefined], so
    neither comparison holds and the remote version is kept. *)
Definition merge_step (baseState remoteState : snapshot)
    (merged : snapshot) (c : change) : snapshot :=
  let remoteVersion := js_get remoteState (id c) in
  let baseVersion := js_get baseState (id c) in
  match remoteVersion with
  | Undefined => js_set merged (id c) c
  | Own r =>
      if timestamp r <? timestamp c then js_set merged (id c) c
      else if timestamp r =? timestamp c then
        if str_gt (deviceId c) (deviceId r) then js_set merged (id c) c
        else merged
      else merged
  | Inherited => merged
  end.

Definition mergeChanges (baseState remoteState : snapshot)
    (localChanges : list change) : snapshot :=
  foldl (merge_step baseState remoteState) remoteState localChanges.

(** Whether [merge_step] writes [c]: the two accepting branches. *)
Definition accepts (remoteState : snapshot) (c : change) : bool :=
  match js_get remoteState (id c) with
  | Undefined => true
  | Own r =>
      (timestamp r <? timestamp c)
      || ((timestamp r =? timestamp c) && str_gt (deviceId c) (deviceId r))
  | Inherited => false
  end.

(** The iteration as a plain update of the own keys; inside [mergeChanges]
    this is what [merge_step] does, see [mergeChanges_fold]. *)
Definition write_step (remoteState merged : snapshot) (c : change) : snapshot :=
  if accepts remoteState c then <[id c := c]> merged else merged.

(** ** S3SyncManager.calculateDiff (lines 91-99) *)

(** The test [!oldState[key] || oldState[key].timestamp !== value.timestamp]:
    an inherited member is truthy, and its [timestamp], [undefined], differs
    from any number. *)
Definition differs (oldState : snapshot) (key : string) (value : change) : bool :=
  match js_get oldState key with
  | Undefined => true
  | Inherited => true
  | Own o => negb (timestamp o =? timestamp value)
  end.

(** [Object.entries(newState)] goes through the own keys of [newState]. *)
Definition calculateDiff (newState oldState : snapshot) : snapshot :=
  map_fold (fun key value diff =>
              if differs oldState key value then js_set diff key value else diff)
           ∅ newState.

(** ** S3SyncManager: state *)

(** The two suspension points of [performSync]: [await fetchRemoteState()]
    and [await this.uploadDiff(...)] once the transport has been called. *)
Inductive await : Type := AwaitFetch | AwaitUpload.

Inductive error : Type := FetchError | BaseStateError | UploadError.

(** What the manager does to the outside world: calls to the remote store
    and [console.error]. *)
Inductive effect : Type :=
| CallFetch
| CallUpload (diff : snapshot)
| ConsoleError (e : error).

(** The fields set by the constructor ([config] and [pendingChanges] are
    never read), the callbacks armed with [setTimeout] (by due time) and
    the [performSync] invocations suspended at an [await]. *)
Record manager : Type := Manager {
  changeQueue : list change;
  lastSyncTimestamp : Z;
  isSyncing : bool;
  timers : list Z;
  inflight : list await;
  effects : list effect
}.

Definition new_manager : manager := Manager [] 0 false [] [] [].

Definition with_changeQueue (q : list change) (m : manager) : manager :=
  Manager q (lastSyncTimestamp m) (isSyncing m) (timers m) (inflight m) (effects m).
Definition with_lastSyncTimestamp (t : Z) (m : manager) : manager :=
  Manager (changeQueue m) t (isSyncing m) (timers m) (inflight m) (effects m).
Definition with_isSyncing (b : bool) (m : manager) : manager :=
  Manager (changeQueue m) (lastSyncTimestamp m) b (timers m) (inflight m) (effects m).
Definition with_timers (ts : list Z) (m : manager) : manager :=
  Manager (changeQueue m) (lastSyncTimestamp m) (isSyncing m) ts (inflight m) (effects m).
Definition with_inflight (ks : list await) (m : manager) : manager :=
  Manager (changeQueue m) (lastSyncTimestamp m) (isSyncing m) (timers m) ks (effects m).
Definition emit (e : effect) (m : manager) : manager :=
  Manager (changeQueue m) (lastSyncTimestamp m) (isSyncing m) (timers m) (inflight m)
          (effects m ++ [e]).

(** ** A state and exception monad with suspension

    A piece of the body of an async method runs on the manager and either
    returns, throws, or stops at an [await]; the code after that [await] is
    the segment that resumes it. *)
Inductive outcome (A : Type) : Type :=
| Return (a : A)
| Throw (e : error)
| Await (k : await).
Arguments Return {A} a.
Arguments Throw {A} e.
Arguments Await {A} k.

Definition segment (A : Type) : Type := manager -> outcome A * manager.

Definition ret {A} (a : A) : segment A := fun m => (Return a, m).
Definition throw {A} (e : error) : segment A := fun m => (Throw e, m).
Definition suspend {A} (k : await) : segment A := fun m => (Await k, m).
Definition get : segment manager := fun m => (Return m, m).
Definition modify (f : manager -> manager) : segment unit := fun m => (Return tt, f m).
Definition bind {A B} (x : segment A) (f : A -> segment B) : segment B :=
  fun m =>
    match x m with
    | (Return a, m') => f a m'
    | (Throw e, m') => (Throw e, m')
    | (Await k, m') => (Await k, m')
    end.

Notation "'let!' x ':=' c1 'in' c2" := (bind c1 (fun x => c2))
  (at level 10, x binder, c1 at level 100, c2 at level 200).
Notation "'run!' c1 'in' c2" := (bind c1 (fun _ => c2))
  (at level 10, c1 at level 100, c2 at level 200).

(** The result of a collaborator call that may throw. *)
Definition settled {A} (r : option A) (e : error) : segment A :=
  match r with Some a => ret a | None => throw e end.

(** ** S3SyncManager: methods *)

Definition SYNC_DELAY : Z := 5000.

Section Manager.

(** [getDeviceId()]: generated once, then stable. *)
Variable device : string.
(** [this.hasChanges], called by [performSync] and defined nowhere in
    the class. *)
Variable hasChanges : snapshot -> snapshot -> bool.

(** [{...change, timestamp: Date.now(), deviceId: this.getDeviceId()}] *)
Definition stamp (c : change) (now : Z) : change :=
  {| id := id c; payload := payload c; timestamp := now; deviceId := device |}.

(** Lines 22-27. *)
Definition scheduleSyncIfNeeded (now : Z) (m : manager) : manager :=
  if negb (isSyncing m) && (0 <? Z.of_nat (length (changeQueue m))) then
    with_timers (timers m ++ [now + SYNC_DELAY]) m
  else m.

(** Lines 12-19. *)
Definition queueChange (c : change) (now : Z) (m : manager) : manager :=
  scheduleSyncIfNeeded now (with_changeQueue (changeQueue m ++ [stamp c now]) m).

(** Lines 81-88: an empty diff returns before the transport is called, and
    the [await] on that return resumes before any timer or caller runs, so
    it is no suspension point here; otherwise the invocation waits for
    [upload.uploadDiff(diff)]. *)
Definition uploadDiff (newState oldState : snapshot) : segment unit :=
  let diff := calculateDiff newState oldState in
  if (size diff =? 0)%nat then ret tt
  else run! modify (emit (CallUpload diff)) in suspend AwaitUpload.

(** Lines 46-47. *)
Definition commit (now : Z) : segment unit :=
  run! modify (with_changeQueue []) in modify (with_lastSyncTimestamp now).

(** Lines 36-47, from the point where [fetchRemoteState()] settles with
    [r]; [base] is what [getLastKnownState()] gives ([None]: it throws). *)
Definition afterFetch (r base : option snapshot) (now : Z) : segment unit :=
  let! remoteState := settled r FetchError in
  let! baseState := settled base BaseStateError in
  let! this := get in
  let mergedState := mergeChanges baseState remoteState (changeQueue this) in
  run! (if hasChanges mergedState remoteState
        then uploadDiff mergedState remoteState
        else ret tt) in
  commit now.

(** Lines 43-47, from the point where the transport settles. *)
Definition afterUpload (ok : bool) (now : Z) : segment unit :=
  run! (if ok then ret tt else throw UploadError) in commit now.

(** [try { body } catch (error) { console.error(...) } finally
    { this.isSyncing = false }] around a segment: nothing is thrown
    further, and a suspended body has not reached [finally] yet. *)
Definition tryCatchFinally (body : segment unit) (m : manager)
    : option await * manager :=
  match body m with
  | (Return _, m') => (None, with_isSyncing false m')
  | (Throw e, m') => (None, with_isSyncing false (emit (ConsoleError e) m'))
  | (Await k, m') => (Some k, m')
  end.

(** Lines 30-36: the guard, the flag, and the call of
    [fetchRemoteState()], at which the invocation suspends. *)
Definition performSync (m : manager) : manager :=
  if isSyncing m then m
  else
    let m := with_isSyncing true m in
    let m := emit CallFetch m in
    with_inflight (inflight m ++ [AwaitFetch]) m.

(** Resuming the [i]-th suspended invocation with [body]. *)
Definition resume (i : nat) (body : segment unit) (m : manager) : manager :=
  match tryCatchFinally body m with
  | (Some k, m') => with_inflight (<[i := k]> (inflight m')) m'
  | (None, m') => with_inflight (delete i (inflight m')) m'
  end.

(** ** The event loop *)

(** What can happen to the manager: a caller invokes [queueChange] at time
    [now]; the [i]-th armed timer fires at [now], not before it is due, and
    calls [performSync]; the fetch awaited by the [i]-th suspended
    invocation settles with [r] ([None]: it rejects), [base] and [now]
    being what [getLastKnownState()] and [Date.now()] give to the code that
    resumes; the upload it awaits settles. An event that does not apply
    leaves the manager as it is. *)
Inductive event : Type :=
| Enqueue (c : change) (now : Z)
| TimerFires (i : nat) (now : Z)
| FetchSettles (i : nat) (r base : option snapshot) (now : Z)
| UploadSettles (i : nat) (ok : bool) (now : Z).

Definition step (m : manager) (e : event) : manager :=
  match e with
  | Enqueue c now => queueChange c now m
  | TimerFires i now =>
      match timers m !! i with
      | Some due =>
          if due <=? now then performSync (with_timers (delete i (timers m)) m)
          else m
      | None => m
      end
  | FetchSettles i r base now =>
      match inflight m !! i with
      | Some AwaitFetch => resume i (afterFetch r base now) m
      | _ => m
      end
  | UploadSettles i ok now =>
      match inflight m !! i with
      | Some AwaitUpload => resume i (afterUpload ok now) m
      | _ => m
      end
  end.

Definition run (m : manager) (evs : list event) : manager := foldl step m evs.

End Manager.

(** Modelled from the spec: [hasChanges] is missing from the class; the
    spec's DIFF step uploads exactly when the diff between merged and
    remote is not empty. Used where a concrete run needs one. *)
Definition hasChanges_diff (merged remote : snapshot) : bool :=
  negb (size (calculateDiff merged remote) =? 0)%nat.

(** ** Vocabulary for the claims about cycles *)

Section Cycles.
Variable device : string.
Variable hasChanges : snapshot -> snapshot -> bool.

(** The changes that [evs] appends to the queue, as stamped. *)
Definition arrivals (evs : list event) : list change :=
  omap (fun e => match e with
                 | Enqueue c now => Some (stamp device c now)
                 | _ => None
                 end) evs.

(** A cycle is running in [m] and in every state that [evs] leads
    through. *)
Fixpoint running_through (m : manager) (evs : list event) : bool :=
  match evs with
  | [] => isSyncing m
  | e :: evs' => isSyncing m && running_through (step device hasChanges m e) evs'
  end.

(** Event [e] makes a step of the running cycle fail in [m]: the fetch
    rejects, [getLastKnownState()] throws inside the merge, or the upload
    rejects. *)
Definition throws (m : manager) (e : event) : bool :=
  match e with
  | FetchSettles i r base _ =>
      match inflight m !! i with
      | Some AwaitFetch =>
          match r, base with Some _, Some _ => false | _, _ => true end
      | _ => false
      end
  | UploadSettles i ok _ =>
      match inflight m !! i with
      | Some AwaitUpload => negb ok
      | _ => false
      end
  | _ => false
  end.

(** [isSyncing] tells whether an invocation is suspended, and there is
    never more than one. *)
Definition coherent (m : manager) : Prop :=
  (isSyncing m = false ∧ inflight m = [])
  ∨ (isSyncing m = true ∧ ∃ k, inflight m = [k]).

(** A burst of [queueChange] calls, each with its time. *)
Definition burst_events (burst : list (change * Z)) : list event :=
  map (fun cn => Enqueue (fst cn) (snd cn)) burst.
End Cycles.

(** ** S3MultipartUpload (lines 113-128) *)

Module S3MultipartUpload.

Record t : Type := { PART_SIZE : Z }.

(** The constructor: 5MB parts. *)
Definition new : t := {| PART_SIZE := 5 * 1024 * 1024 |}.

(** One part of a multipart transfer, tagged with its sequence index and
    the total count. *)
Record part : Type := Part {
  seq_index : nat;
  total : nat;
  body : list ascii
}.

Inductive transfer : Type :=
| Single (data : list ascii)
| Multipart (parts : list part).

(** How many units travel to the remote store. *)
Definition units (x : transfer) : nat :=
  match x with
  | Single _ => 1%nat
  | Multipart parts => length parts
  end.

(** Modelled from the spec: [uploadSingle] is missing from the class
    ("Implementation details for uploads..."); the payload is sent as one
    unit. *)
Definition uploadSingle (data : list ascii) : transfer := Single data.

(** Modelled from the spec: the chunker behind [uploadMultipart], also
    missing from the class: the payload is cut front to back into parts
    of [M] code units, the last one holding the rest. [fuel] bounds the
    number of parts. *)
Fixpoint split_parts (fuel M : nat) (data : list ascii) : list (list ascii) :=
  match fuel with
  | O => []
  | S fuel' =>
      match data with
      | [] => []
      | _ => take M data :: split_parts fuel' M (drop M data)
      end
  end.

Definition chunk (M : nat) (data : list ascii) : list (list ascii) :=
  split_parts (length data) M data.

(** Modelled from the spec: [uploadMultipart], missing from the class:
    the parts of [chunk], each tagged with sequence index and total
    count. *)
Definition uploadMultipart (u : t) (data : list ascii) : transfer :=
  let bodies := chunk (Z.to_nat (PART_SIZE u)) data in
  Multipart (imap (fun i b => Part i (length bodies) b) bodies).

Section Upload.
(** [JSON.stringify], as the sequence of code units of its result. *)
Variable JSON_stringify : snapshot -> list ascii.

(** Lines 119-125. *)
Definition uploadDiff (u : t) (diff : snapshot) : transfer :=
  let data := JSON_stringify diff in
  if Z.of_nat (length data) <? PART_SIZE u then uploadSingle data
  else uploadMultipart u data.
End Upload.

End S3MultipartUpload.

(** [ceil(P/M)] on integers. *)
Definition ceil_div (P M : Z) : Z := (P + M - 1) / M.

(** ** S3SyncManager.getDeviceId (lines 101-109) *)

(** What [getDeviceId] reads and writes: the field [this._deviceId]
    ([None]: never assigned), the browser's [localStorage], and how many
    values [crypto.randomUUID()] has handed out. *)
Record identity : Type := Identity {
  _deviceId : option string;
  localStorage : gmap string string;
  uuids_drawn : nat
}.

(** JS truthiness of a string: only the empty string is falsy. *)
Definition truthy (s : string) : bool := negb (String.eqb s "").

Section Identity.

(** [crypto.randomUUID()]: the value of its [n]-th call. *)
Variable randomUUID : nat -> string.

(** [localStorage.getItem('deviceId') || crypto.randomUUID()]: the right
    operand is evaluated only when the stored value is missing or empty. *)
Definition stored_or_fresh (s : identity) : string * nat :=
  match localStorage s !! "deviceId" with
  | Some v =>
      if truthy v then (v, uuids_drawn s)
      else (randomUUID (uuids_drawn s), S (uuids_drawn s))
  | None => (randomUUID (uuids_drawn s), S (uuids_drawn s))
  end.

(** The body of [if (!this._deviceId)]. *)
Definition assignDeviceId (s : identity) : identity :=
  let (d, n) := stored_or_fresh s in
  {| _deviceId := Some d;
     localStorage := <["deviceId" := d]> (localStorage s);
     uuids_drawn := n |}.

Definition getDeviceId (s : identity) : string * identity :=
  let s' :=
    match _deviceId s with
    | Some d => if truthy d then s else assignDeviceId s
    | None => assignDeviceId s
    end in
  (default "" (_deviceId s'), s').

(** [n] calls in a row, with the values they return. *)
Fixpoint getDeviceId_repeat (n : nat) (s : identity) : list string * identity :=
  match n with
  | O => ([], s)
  | S n' =>
      let (d, s1) := getDeviceId s in
      let (ds, s2) := getDeviceId_repeat n' s1 in
      (d :: ds, s2)
  end.

End Identity.

(** ** Counting events and effects *)

Fixpoint count {A : Type} (p : A -> bool) (l : list A) : nat :=
  match l with
  | [] => 0
  | x :: l' => (if p x then 1 else 0) + count p l'
  end.

Definition is_enqueue (e : event) : bool :=
  match e with Enqueue _ _ => true | _ => false end.
Definition is_fetch (e : effect) : bool :=
  match e with CallFetch => true | _ => false end.
Definition is_upload (e : effect) : bool :=
  match e with CallUpload _ => true | _ => false end.
Definition is_await_fetch (k : await) : bool :=
  match k with AwaitFetch => true | AwaitUpload => false end.

(** ** Sample data for the worked runs *)

Definition remote_z : snapshot := {["z" := Change "z" "" 50 "R"]}.
Definition remote_a : snapshot := {["a" := Change "a" "" 100 "A"]}.
Definition remote_tied : snapshot :=
  {["a" := Change "a" "" 100 "X"; "b" := Change "b" "" 100 "B"]}.
Definition remote_newer : snapshot :=
  {["a" := Change "a" "r" 9000 "R"; "b" := Change "b" "s" 9000 "R"]}.

Definition twice_a : list change :=
  [Change "a" "p1" 100 "X"; Change "b" "q" 150 "X"; Change "a" "p2" 200 "X"].

Definition edit_a : change := Change "a" "p" 0 "".
Definition edit_b : change := Change "b" "q" 0 "".
Definition edit_c : change := Change "c" "r" 0 "".

Abbreviation run_D := (run "D" hasChanges_diff).
Abbreviation step_D := (step "D" hasChanges_diff).

(** Three edits within two seconds. *)
Definition burst3 : list (change * Z) := [(edit_a, 0); (edit_b, 1000); (edit_c, 2000)].

(** One edit, its timer, a fetch of an empty remote, a second edit while
    the upload is in flight, and the upload succeeding. *)
Definition upload_race : list event :=
  [Enqueue edit_a 0; TimerFires 0 5000; FetchSettles 0 (Some ∅) (Some ∅) 5100;
   Enqueue edit_b 5200; UploadSettles 0 true 5300].


(** Two edits and the first timer: a cycle is running, a timer is armed. *)
Definition busy : list event :=
  [Enqueue edit_a 0; Enqueue edit_b 1000; TimerFires 0 5000].

(** A browser whose storage holds an id, one whose storage is empty, and
    a generator of identifiers. *)
Definition returning_browser : identity :=
  Identity None {["deviceId" := "dev-1"]} 0.
Definition fresh_browser : identity := Identity None ∅ 0.
Definition blank_browser : identity := Identity None {["deviceId" := ""]} 0.
Definition toy_uuid (n : nat) : string :=
  match n with O => "uuid-0" | _ => "uuid-n" end.

(** A toy serializer, five code units per entry, and a tiny part size. *)
Definition toy_stringify (d : snapshot) : list ascii :=
  repeat "x"%char (5 * size d).
Definition tiny_parts : S3MultipartUpload.t := {| S3MultipartUpload.PART_SIZE := 4 |}.

(** * Properties *)

(** ** The merge *)

Example merge_scenario :
  mergeChanges ∅ ∅ [Change "a" "" 100 "X"; Change "a" "" 100 "Y"] !! "a"
  = Some (Change "a" "" 100 "Y").
Proof. reflexivity. Qed.

(** A pending change whose id names an inherited member that the remote
    lacks is taken to have a remote version and is not merged. *)
Example merge_inherited_id :
  mergeChanges ∅ ∅ [Change "constructor" "p" 100 "X"] = ∅.
Proof. reflexivity. Qed.

(** An entry under "__proto__" does not reach the diff. *)
Example diff_proto_key :
  calculateDiff {["__proto__" := Change "__proto__" "p" 100 "X"]} ∅ = ∅.
Proof. reflexivity. Qed.

Section Merge.
Variables baseState remoteState : snapshot.
Implicit Types (l : list change) (c : change) (k : string) (merged : snapshot).

Lemma js_set_insert (o : snapshot) k (v : change) :
  k ≠ "__proto__" ∨ is_Some (o !! k) → js_set o k v = <[k := v]> o.
Proof.
  intros Hk. unfold js_set. destruct (o !! k) as [w|] eqn:Ho; [done|].
  destruct Hk as [Hk|[w Hw]]; [|discriminate].
  apply String.eqb_neq in Hk. by rewrite Hk.
Qed.

Lemma not_inherited_proto k : inherited k = false → k ≠ "__proto__".
Proof. intros Hk ->. discriminate Hk. Qed.

(** Where [merged] still has the own key "__proto__" whenever the remote
    snapshot has it, the iteration is a plain update. *)
Lemma merge_step_accepts merged c :
  (is_Some (remoteState !! "__proto__") → is_Some (merged !! "__proto__")) →
  merge_step baseState remoteState merged c = write_step remoteState merged c.
Proof.
  intros Hinv. unfold merge_step, write_step, accepts, js_get.
  destruct (remoteState !! id c) as [r|] eqn:Hr.
  - assert (Hset : js_set merged (id c) c = <[id c := c]> merged).
    { destruct (decide (id c = "__proto__")) as [Heq|Hne].
      - apply js_set_insert. right. rewrite Heq in *. apply Hinv. eauto.
      - apply js_set_insert. by left. }
    rewrite Hset.
    destruct (timestamp r <? timestamp c); [done|].
    destruct (timestamp r =? timestamp c); [|done].
    by destruct (str_gt (deviceId c) (deviceId r)).
  - destruct (inherited (id c)) eqn:Hi; [done|].
    apply js_set_insert. left. by apply not_inherited_proto.
Qed.

Lemma write_step_keeps merged c k :
  is_Some (merged !! k) → is_Some (write_step remoteState merged c !! k).
Proof.
  intros Hk. unfold write_step. destruct (accepts remoteState c); [|done].
  destruct (decide (id c = k)) as [->|Hne].
  - rewrite lookup_insert_eq. eauto.
  - by rewrite lookup_insert_ne.
Qed.

(** The merge as a fold of plain updates: it starts from the remote's own
    keys and never drops one, so the setter of "__proto__" is never run. *)
Lemma mergeChanges_fold l :
  mergeChanges baseState remoteState l = foldl (write_step remoteState) remoteState l.
Proof.
  unfold mergeChanges.
  assert (Hgen : ∀ merged,
    (is_Some (remoteState !! "__proto__") → is_Some (merged !! "__proto__")) →
    foldl (merge_step baseState remoteState) merged l
    = foldl (write_step remoteState) merged l).
  { induction l as [|c l IH]; intros merged Hinv; [done|].
    simpl. rewrite merge_step_accepts by done. apply IH.
    intros Hp. by apply write_step_keeps, Hinv. }
  by apply Hgen.
Qed.

Lemma merge_step_other merged c k :
  id c ≠ k → write_step remoteState merged c !! k = merged !! k.
Proof.
  intros Hk. unfold write_step.
  destruct (accepts remoteState c); [by rewrite lookup_insert_ne|done].
Qed.

Lemma merge_step_comm merged c1 c2 :
  id c1 ≠ id c2 →
  write_step remoteState (write_step remoteState merged c1) c2
  = write_step remoteState (write_step remoteState merged c2) c1.
Proof.
  intros Hne. unfold write_step.
  destruct (accepts remoteState c1), (accepts remoteState c2); try done.
  by apply insert_insert_ne.
Qed.

Lemma foldl_merge_other l merged k :
  Forall (fun c => id c ≠ k) l →
  foldl (write_step remoteState) merged l !! k = merged !! k.
Proof.
  intros Hl. revert merged.
  induction Hl as [|c l Hc _ IH]; intros merged; simpl; [done|].
  by rewrite IH, merge_step_other.
Qed.

(** What the merged snapshot holds at [k]: the last accepted pending
    change with that id, and the remote entry when there is none. *)
Lemma merge_lookup l k :
  mergeChanges baseState remoteState l !! k
  = match last (filter (fun c => id c = k ∧ accepts remoteState c = true) l) with
    | Some c => Some c
    | None => remoteState !! k
    end.
Proof.
  rewrite mergeChanges_fold.
  induction l as [|c l IH] using rev_ind; [done|].
  rewrite foldl_app, filter_app. simpl. unfold write_step at 1.
  destruct (decide (id c = k ∧ accepts remoteState c = true)) as [[Hk Ha]|Hn].
  - rewrite filter_cons_True, filter_nil, last_snoc by done.
    rewrite Ha, <- Hk. apply lookup_insert_eq.
  - rewrite filter_cons_False, filter_nil, app_nil_r by done.
    destruct (accepts remoteState c) eqn:Ha; [|done].
    rewrite lookup_insert_ne; [done|]. intros Hk. by apply Hn.
Qed.

(** Reordering pending changes with pairwise distinct ids does not
    change the merge. *)
Lemma foldl_merge_perm l l' :
  l ≡ₚ l' → NoDup (id <$> l) →
  ∀ merged, foldl (write_step remoteState) merged l
            = foldl (write_step remoteState) merged l'.
Proof.
  induction 1 as [|c l l' Hp IH|c1 c2 l|l l' l'' Hp IH Hp' IH']; intros Hnd merged.
  - done.
  - simpl. apply IH. by inversion Hnd.
  - simpl. f_equal. apply merge_step_comm.
    inversion Hnd as [|?? Hin _]; subst. intros Heq. apply Hin.
    rewrite Heq. apply list_elem_of_here.
  - rewrite IH by done. apply IH'. by rewrite <- Hp.
Qed.

End Merge.

(** ** The diff *)

Lemma calculateDiff_lookup (newState oldState : snapshot) (k : string) :
  calculateDiff newState oldState !! k
  = if String.eqb k "__proto__" then None
    else newState !! k ≫= (fun v => if differs oldState k v then Some v else None).
Proof.
  unfold calculateDiff. revert k.
  apply (map_fold_weak_ind (fun diff (m : snapshot) => ∀ k,
    diff !! k = if String.eqb k "__proto__" then None
                else m !! k ≫= (fun v => if differs oldState k v then Some v else None))).
  - intros k. rewrite !lookup_empty. by destruct (String.eqb k "__proto__").
  - intros i x m diff Hi IH k.
    assert (Hset : js_set diff i x
                   = if String.eqb i "__proto__" then diff else <[i := x]> diff).
    { unfold js_set. destruct (diff !! i) as [w|] eqn:Hd; [|done].
      specialize (IH i). rewrite Hd, Hi in IH.
      by destruct (String.eqb i "__proto__"). }
    destruct (decide (i = k)) as [->|Hne].
    + rewrite lookup_insert_eq. simpl. specialize (IH k). rewrite Hi in IH.
      destruct (differs oldState k x).
      * rewrite Hset. destruct (String.eqb k "__proto__"); [done|].
        by rewrite lookup_insert_eq.
      * rewrite IH. by destruct (String.eqb k "__proto__").
    + rewrite (lookup_insert_ne m) by done. rewrite <- IH.
      destruct (differs oldState i x); [|done].
      rewrite Hset. destruct (String.eqb i "__proto__"); [done|].
      by rewrite lookup_insert_ne.
Qed.

(** ** Claims about the merge and the diff *)

(** C8, as stated, fails: of two pending changes to one id that the remote
    does not hold, only the later one is in the merged snapshot. *)
Lemma merge_includes_absent_counterexample :
  ¬ (∀ (baseState remoteState : snapshot) (l : list change) (c : change),
       c ∈ l → remoteState !! id c = None →
       mergeChanges baseState remoteState l !! id c = Some c).
Proof.
  intros H.
  specialize (H ∅ ∅ [Change "a" "p1" 100 "X"; Change "a" "p2" 200 "X"]
                (Change "a" "p1" 100 "X")).
  assert (Hin : Change "a" "p1" 100 "X"
                ∈ [Change "a" "p1" 100 "X"; Change "a" "p2" 200 "X"])
    by apply list_elem_of_here.
  specialize (H Hin eq_refl). vm_compute in H. discriminate H.
Qed.

(** C8 (amended): for every pending change [c] whose id the remote snapshot
    does not hold, and whose id is not the name of a member that plain
    objects inherit from [Object.prototype], the merged snapshot holds at
    key [c.id] the last pending change of the queue with that id; that is
    [c] itself whenever no later pending change shares its id. *)
Theorem merge_includes_absent (baseState remoteState : snapshot)
    (l : list change) (c : change) :
  c ∈ l → remoteState !! id c = None → inherited (id c) = false →
  (∃ w, last (filter (fun c' => id c' = id c) l) = Some w
        ∧ mergeChanges baseState remoteState l !! id c = Some w)
  ∧ (∀ l1 l2, l = l1 ++ c :: l2 → Forall (fun c' => id c' ≠ id c) l2 →
       mergeChanges baseState remoteState l !! id c = Some c).
Proof.
  intros Hin Hrem Hplain.
  assert (Hacc : ∀ c', id c' = id c → accepts remoteState c' = true).
  { intros c' Hid. unfold accepts, js_get. by rewrite Hid, Hrem, Hplain. }
  split.
  - rewrite merge_lookup.
    rewrite (list_filter_iff
               (fun c' => id c' = id c ∧ accepts remoteState c' = true)
               (fun c' => id c' = id c)).
    2:{ intros c'. split; [by intros [? _]|].
        intros Hid. split; [done|]. by apply Hacc. }
    destruct (last (filter (fun c' => id c' = id c) l)) as [w|] eqn:Hlast; [eauto|].
    apply last_None in Hlast.
    assert (Hc : c ∈ filter (fun c' => id c' = id c) l)
      by (apply list_elem_of_filter; done).
    rewrite Hlast in Hc. by apply elem_of_nil in Hc.
  - intros l1 l2 -> Hl2. rewrite mergeChanges_fold.
    rewrite foldl_app. simpl. rewrite foldl_merge_other by done.
    unfold write_step. rewrite Hacc by done.
    apply lookup_insert_eq.
Qed.

Lemma merge_includes_absent_witness :
  (∃ w, last (filter (fun c' => id c' = "a") twice_a) = Some w
        ∧ mergeChanges ∅ remote_z twice_a !! "a" = Some w)
  ∧ mergeChanges ∅ remote_z twice_a !! "a" = Some (Change "a" "p2" 200 "X").
Proof.
  destruct (merge_includes_absent ∅ remote_z twice_a (Change "a" "p2" 200 "X"))
    as [H1 H2].
  - do 2 apply list_elem_of_further. apply list_elem_of_here.
  - reflexivity.
  - reflexivity.
  - split; [exact H1|].
    apply (H2 [Change "a" "p1" 100 "X"; Change "b" "q" 150 "X"] []).
    + reflexivity.
    + constructor.
Defined.

(** C2, as stated, fails: two pending changes to one id with equal
    timestamps are not compared with each other; the later one in the queue
    overwrites the earlier one, so the record of the lesser device can be
    selected and the order of the queue decides. *)
Lemma merge_tiebreak_counterexample :
  ¬ (∀ (baseState remoteState : snapshot) (l : list change) (c1 c2 : change),
       c1 ∈ l → c2 ∈ l → id c1 = id c2 → timestamp c1 = timestamp c2 →
       str_gt (deviceId c1) (deviceId c2) = true →
       mergeChanges baseState remoteState l !! id c1 ≠ Some c2)
  ∧ ¬ (∀ (baseState remoteState : snapshot) (l l' : list change),
         l ≡ₚ l' →
         mergeChanges baseState remoteState l = mergeChanges baseState remoteState l').
Proof.
  split.
  - intros H.
    apply (H ∅ ∅ [Change "a" "" 100 "Y"; Change "a" "" 100 "X"]
             (Change "a" "" 100 "Y") (Change "a" "" 100 "X")).
    + apply list_elem_of_here.
    + apply list_elem_of_further, list_elem_of_here.
    + reflexivity.
    + reflexivity.
    + reflexivity.
    + reflexivity.
  - intros H.
    specialize (H ∅ ∅ [Change "a" "" 100 "Y"; Change "a" "" 100 "X"]
                  [Change "a" "" 100 "X"; Change "a" "" 100 "Y"]
                  (Permutation_swap _ _ _)).
    apply (f_equal (fun m : snapshot => m !! "a")) in H.
    vm_compute in H. discriminate H.
Qed.

(** C2 (amended): the tie on equal timestamps is broken between a pending
    change and the remote entry for its id, never between two pending
    changes. For every base and remote snapshot and every pending-change
    list whose ids are pairwise distinct, a pending change whose timestamp
    equals the remote entry's is selected exactly when its deviceId is
    lexicographically greater than the remote entry's (otherwise the remote
    entry stays), and the merged result is the same for any permutation of
    the list. *)
Theorem merge_tiebreak (baseState remoteState : snapshot) (l : list change) :
  NoDup (id <$> l) →
  (∀ c r, c ∈ l → remoteState !! id c = Some r → timestamp r = timestamp c →
     mergeChanges baseState remoteState l !! id c
     = Some (if str_gt (deviceId c) (deviceId r) then c else r))
  ∧ (∀ l', l ≡ₚ l' →
       mergeChanges baseState remoteState l' = mergeChanges baseState remoteState l).
Proof.
  intros Hnd. split.
  - intros c r Hin Hrem Hts.
    apply elem_of_Permutation in Hin as [l' Hp].
    rewrite mergeChanges_fold.
    rewrite (foldl_merge_perm remoteState l (c :: l') Hp Hnd).
    rewrite Hp in Hnd. simpl in Hnd. apply NoDup_cons in Hnd as [Hnin _].
    simpl. rewrite foldl_merge_other.
    + unfold write_step, accepts, js_get.
      rewrite Hrem, Hts, Z.ltb_irrefl, Z.eqb_refl. simpl.
      destruct (str_gt (deviceId c) (deviceId r)); [apply lookup_insert_eq|done].
    + apply Forall_forall. intros c' Hc' Heq. apply Hnin.
      rewrite <- Heq. apply list_elem_of_fmap. eauto.
  - intros l' Hp. rewrite !mergeChanges_fold. symmetry. by apply foldl_merge_perm.
Qed.

Lemma merge_tiebreak_witness :
  mergeChanges ∅ remote_tied [Change "a" "" 100 "Y"; Change "b" "" 100 "A"] !! "a"
  = Some (Change "a" "" 100 "Y")
  ∧ mergeChanges ∅ remote_tied [Change "a" "" 100 "Y"; Change "b" "" 100 "A"] !! "b"
    = Some (Change "b" "" 100 "B")
  ∧ mergeChanges ∅ remote_tied [Change "b" "" 100 "A"; Change "a" "" 100 "Y"]
    = mergeChanges ∅ remote_tied [Change "a" "" 100 "Y"; Change "b" "" 100 "A"].
Proof.
  destruct (merge_tiebreak ∅ remote_tied
              [Change "a" "" 100 "Y"; Change "b" "" 100 "A"]) as [H1 H2].
  - simpl. apply NoDup_cons. split.
    + intros Hin. apply list_elem_of_singleton in Hin. discriminate Hin.
    + apply NoDup_singleton.
  - split; [|split].
    + apply (H1 (Change "a" "" 100 "Y") (Change "a" "" 100 "X")).
      * apply list_elem_of_here.
      * reflexivity.
      * reflexivity.
    + apply (H1 (Change "b" "" 100 "A") (Change "b" "" 100 "B")).
      * apply list_elem_of_further, list_elem_of_here.
      * reflexivity.
      * reflexivity.
    + apply H2. apply Permutation_swap.
Defined.

(** C10, as stated, fails: a later pending change to the same id with a newer
    timestamp replaces the tiebreak winner in the merged snapshot, and the
    diff then holds that id. *)
Lemma tiebreak_winner_diff_counterexample :
  ¬ (∀ (baseState remoteState : snapshot) (l : list change) (c r : change),
       c ∈ l → remoteState !! id c = Some r →
       timestamp c = timestamp r → str_gt (deviceId c) (deviceId r) = true →
       calculateDiff (mergeChanges baseState remoteState l) remoteState !! id c = None).
Proof.
  intros H.
  specialize (H ∅ remote_a
                [Change "a" "p" 100 "B"; Change "a" "q" 200 "B"]
                (Change "a" "p" 100 "B") (Change "a" "" 100 "A")
                (list_elem_of_here _ _) eq_refl eq_refl eq_refl).
  vm_compute in H. discriminate H.
Qed.

(** C10 (amended): for every remote snapshot and pending change [c] that wins
    the equal-timestamp tiebreak against the remote entry for [c.id], if no
    pending change with that id has a timestamp greater than the remote
    entry's, the merged snapshot holds at [c.id] a pending change with the
    remote entry's timestamp and the diff between the merged and the remote
    snapshot excludes [c.id]; and in every case the diff's entry at [c.id],
    if any, has another timestamp than [c], so [c] itself is never
    uploaded. *)
Theorem tiebreak_winner_not_uploaded (baseState remoteState : snapshot)
    (l : list change) (c r : change) :
  c ∈ l → remoteState !! id c = Some r →
  timestamp c = timestamp r → str_gt (deviceId c) (deviceId r) = true →
  (Forall (fun c' => id c' = id c → timestamp c' ≤ timestamp r) l →
     (∃ w, mergeChanges baseState remoteState l !! id c = Some w
           ∧ w ∈ l ∧ timestamp w = timestamp r
           ∧ str_gt (deviceId w) (deviceId r) = true)
     ∧ calculateDiff (mergeChanges baseState remoteState l) remoteState !! id c = None)
  ∧ (∀ v, calculateDiff (mergeChanges baseState remoteState l) remoteState !! id c
          = Some v → timestamp v ≠ timestamp c).
Proof.
  intros Hin Hrem Hts Hgt. split.
  - intros Hle.
    assert (Hw : ∃ w, mergeChanges baseState remoteState l !! id c = Some w
                      ∧ w ∈ l ∧ timestamp w = timestamp r
                      ∧ str_gt (deviceId w) (deviceId r) = true).
    { rewrite merge_lookup.
      destruct (last (filter (fun c' => id c' = id c ∧ accepts remoteState c' = true) l))
        as [w|] eqn:Hlast.
      - exists w. split; [done|].
        apply last_Some_elem_of, list_elem_of_filter in Hlast as [[Hid Hacc] Hwl].
        split; [done|].
        rewrite Forall_forall in Hle. specialize (Hle w Hwl Hid).
        unfold accepts, js_get in Hacc. rewrite Hid, Hrem in Hacc.
        apply orb_true_iff in Hacc as [Hlt|Heq].
        + apply Z.ltb_lt in Hlt. lia.
        + apply andb_true_iff in Heq as [Heq Hdev].
          apply Z.eqb_eq in Heq. done.
      - apply last_None in Hlast.
        assert (Hc : c ∈ filter (fun c' => id c' = id c ∧ accepts remoteState c' = true) l).
        { apply list_elem_of_filter. split; [|done]. split; [done|].
          unfold accepts, js_get. rewrite Hrem, Hts, Z.eqb_refl, Hgt.
          apply orb_true_r. }
        rewrite Hlast in Hc. by apply elem_of_nil in Hc. }
    split; [done|].
    destruct Hw as (w & Hw & _ & Htw & _).
    rewrite calculateDiff_lookup, Hw. simpl.
    unfold differs, js_get. rewrite Hrem, Htw, Z.eqb_refl.
    by destruct (String.eqb (id c) "__proto__").
  - intros v Hv. rewrite calculateDiff_lookup in Hv.
    destruct (String.eqb (id c) "__proto__"); [done|].
    destruct (mergeChanges baseState remoteState l !! id c) as [w|]; [|done].
    simpl in Hv. unfold differs, js_get in Hv. rewrite Hrem in Hv.
    destruct (timestamp r =? timestamp w) eqn:Heq; [done|].
    simpl in Hv. injection Hv as ->. apply Z.eqb_neq in Heq. lia.
Qed.

Lemma tiebreak_winner_not_uploaded_witness :
  (∃ w, mergeChanges ∅ remote_a [Change "a" "p" 100 "B"; Change "a" "q" 90 "B"] !! "a"
        = Some w
        ∧ w ∈ [Change "a" "p" 100 "B"; Change "a" "q" 90 "B"]
        ∧ timestamp w = 100
        ∧ str_gt (deviceId w) "A" = true)
  ∧ calculateDiff
      (mergeChanges ∅ remote_a [Change "a" "p" 100 "B"; Change "a" "q" 90 "B"])
      remote_a !! "a" = None.
Proof.
  destruct (tiebreak_winner_not_uploaded ∅ remote_a
              [Change "a" "p" 100 "B"; Change "a" "q" 90 "B"]
              (Change "a" "p" 100 "B") (Change "a" "" 100 "A")) as [H1 _].
  - apply list_elem_of_here.
  - reflexivity.
  - reflexivity.
  - reflexivity.
  - apply H1. repeat constructor; simpl; lia.
Defined.

(** ** The cycle *)

Section CycleProperties.
Variable device : string.
Variable hasChanges : snapshot -> snapshot -> bool.

Abbreviation step := (step device hasChanges).
Abbreviation run := (run device hasChanges).
Abbreviation queueChange := (queueChange device).
Abbreviation afterFetch := (afterFetch hasChanges).
Abbreviation arrivals := (arrivals device).
Abbreviation running_through := (running_through device hasChanges).

Ltac unfold_segments :=
  unfold resume, tryCatchFinally, afterFetch, afterUpload, uploadDiff,
    commit, settled, bind, ret, throw, suspend, modify, get in *.

Lemma run_app m evs evs' : run m (evs ++ evs') = run (run m evs) evs'.
Proof. apply foldl_app. Qed.

Lemma run_cons m e evs : run m (e :: evs) = run (step m e) evs.
Proof. reflexivity. Qed.

Lemma run_snoc m evs e : run m (evs ++ [e]) = step (run m evs) e.
Proof. by rewrite run_app. Qed.

Lemma performSync_idle m :
  isSyncing m = false →
  performSync m
  = with_inflight (inflight m ++ [AwaitFetch]) (emit CallFetch (with_isSyncing true m)).
Proof. intros Hidle. unfold performSync. by rewrite Hidle. Qed.

(** *** What one event does *)

Lemma queueChange_idle c now m :
  isSyncing m = false →
  queueChange c now m
  = with_timers (timers m ++ [now + SYNC_DELAY])
      (with_changeQueue (changeQueue m ++ [stamp device c now]) m).
Proof.
  intros Hidle. unfold queueChange, scheduleSyncIfNeeded. simpl.
  rewrite Hidle, length_app. simpl.
  destruct (0 <? Z.of_nat (length (changeQueue m) + 1)) eqn:Hlen; [done|].
  apply Z.ltb_ge in Hlen. lia.
Qed.

Lemma queueChange_syncing c now m :
  isSyncing m = true →
  queueChange c now m = with_changeQueue (changeQueue m ++ [stamp device c now]) m.
Proof.
  intros Hs. unfold queueChange, scheduleSyncIfNeeded. simpl. by rewrite Hs.
Qed.

(** A settling fetch or upload either suspends again, ends by the
    [catch], or ends by the commit. *)
Lemma resume_afterFetch_cases i r base now m :
  let m' := resume i (afterFetch r base now) m in
  (∃ remote b, r = Some remote ∧ base = Some b
     ∧ hasChanges (mergeChanges b remote (changeQueue m)) remote = true
     ∧ calculateDiff (mergeChanges b remote (changeQueue m)) remote ≠ ∅
     ∧ m' = with_inflight (<[i := AwaitUpload]> (inflight m))
              (emit (CallUpload
                       (calculateDiff (mergeChanges b remote (changeQueue m)) remote)) m))
  ∨ (∃ e, (r = None ∨ base = None)
     ∧ m' = with_inflight (delete i (inflight m))
              (with_isSyncing false (emit (ConsoleError e) m)))
  ∨ (∃ remote b, r = Some remote ∧ base = Some b
     ∧ (hasChanges (mergeChanges b remote (changeQueue m)) remote = false
        ∨ calculateDiff (mergeChanges b remote (changeQueue m)) remote = ∅)
     ∧ m' = with_inflight (delete i (inflight m))
              (with_isSyncing false
                 (with_lastSyncTimestamp now (with_changeQueue [] m)))).
Proof.
  intros m'. subst m'. unfold_segments.
  destruct r as [remote|]; simpl; [|right; left; eauto].
  destruct base as [b|]; simpl; [|right; left; eauto].
  destruct (hasChanges (mergeChanges b remote (changeQueue m)) remote) eqn:Hh.
  - destruct (size (calculateDiff (mergeChanges b remote (changeQueue m)) remote)
              =? 0)%nat eqn:Hsz; simpl.
    + right; right. exists remote, b. repeat split; try done.
      right. apply Nat.eqb_eq in Hsz. by apply map_size_empty_iff.
    + left. exists remote, b. repeat split; try done.
      intros Hempty. rewrite Hempty, map_size_empty in Hsz. done.
  - simpl. right; right. exists remote, b. repeat split; try done. by left.
Qed.

Lemma resume_afterUpload i ok now m :
  resume i (afterUpload ok now) m
  = if ok
    then with_inflight (delete i (inflight m))
           (with_isSyncing false (with_lastSyncTimestamp now (with_changeQueue [] m)))
    else with_inflight (delete i (inflight m))
           (with_isSyncing false (emit (ConsoleError UploadError) m)).
Proof. unfold_segments. by destruct ok. Qed.

(** *** Mutual exclusion *)

Lemma coherent_new : coherent new_manager.
Proof. left. done. Qed.

Lemma step_coherent m e : coherent m → coherent (step m e).
Proof.
  intros Hc. destruct e as [c now|i now|i r base now|i ok now]; simpl.
  - destruct Hc as [[Hs Hi]|[Hs Hi]].
    + rewrite queueChange_idle by done. by left.
    + rewrite queueChange_syncing by done. by right.
  - destruct (timers m !! i) as [due|]; [|done].
    destruct (due <=? now); [|done].
    unfold performSync. simpl.
    destruct Hc as [[Hs Hi]|[Hs Hi]]; rewrite Hs.
    + right. simpl. rewrite Hi. eauto.
    + by right.
  - destruct (inflight m !! i) as [[|]|] eqn:Hk; try done.
    destruct Hc as [[Hs Hi]|[Hs [k Hi]]]; [by rewrite Hi in Hk|].
    rewrite Hi in Hk. destruct i as [|i]; [|done].
    destruct (resume_afterFetch_cases 0 r base now m)
      as [(?&?&_&_&_&_&->)|[(?&_&->)|(?&?&_&_&_&->)]];
      simpl; rewrite Hi; simpl; [right; eauto|by left|by left].
  - destruct (inflight m !! i) as [[|]|] eqn:Hk; try done.
    destruct Hc as [[Hs Hi]|[Hs [k Hi]]]; [by rewrite Hi in Hk|].
    rewrite Hi in Hk. destruct i as [|i]; [|done].
    rewrite resume_afterUpload. destruct ok; simpl; rewrite Hi; by left.
Qed.

Lemma run_coherent evs m : coherent m → coherent (run m evs).
Proof.
  revert m. induction evs as [|e evs IH]; intros m Hc; [done|].
  simpl. apply IH. by apply step_coherent.
Qed.

(** C7: at most one sync cycle is in flight at any time. In every state
    the manager reaches from its construction, at most one invocation of
    [performSync] is suspended and [isSyncing] is true exactly then; an
    invocation made while [isSyncing] is true returns without doing
    anything, also when a timer makes it; and whenever the running
    invocation ends, by returning or by a caught error, [isSyncing] is
    false again. *)
Theorem one_cycle_in_flight (evs : list event) (m : manager) :
  m = run new_manager evs →
  (length (inflight m) ≤ 1)%nat
  ∧ (isSyncing m = true ↔ inflight m ≠ [])
  ∧ (isSyncing m = true → performSync m = m)
  ∧ (∀ i due now, isSyncing m = true → timers m !! i = Some due → due ≤ now →
       step m (TimerFires i now) = with_timers (delete i (timers m)) m)
  ∧ (∀ e, isSyncing m = true → inflight (step m e) = [] →
       isSyncing (step m e) = false)
  ∧ (∀ body m', tryCatchFinally body m = (None, m') → isSyncing m' = false).
Proof.
  intros ->.
  pose proof (run_coherent evs new_manager coherent_new) as Hc.
  set (m := run new_manager evs) in *. clearbody m.
  split; [|split; [|split; [|split; [|split]]]].
  - destruct Hc as [[_ ->]|[_ [k ->]]]; simpl; lia.
  - destruct Hc as [[Hs ->]|[Hs [k ->]]]; rewrite Hs; split; done.
  - intros Hs. unfold performSync. by rewrite Hs.
  - intros i due now Hs Hdue Hle. simpl. rewrite Hdue.
    destruct (due <=? now) eqn:Hd; [|apply Z.leb_gt in Hd; lia].
    unfold performSync. simpl. by rewrite Hs.
  - intros e _ Hnil.
    destruct (step_coherent m e Hc) as [[Hs _]|[_ [k Hk]]]; [done|].
    by rewrite Hk in Hnil.
  - intros body m'. unfold tryCatchFinally.
    destruct (body m) as [[a|e|k] m'']; intros [= <-]; done.
Qed.

(** C3: in a cycle where fetch and merge succeed and the diff between
    merged and remote is empty, nothing is handed to the transport and the
    cycle commits: the queue is cleared, [lastSyncTimestamp] is set to the
    current time, and the cycle is over. *)
Theorem empty_diff_cycle_commits (m : manager) (i : nat)
    (remote base : snapshot) (now : Z) :
  inflight m !! i = Some AwaitFetch →
  calculateDiff (mergeChanges base remote (changeQueue m)) remote = ∅ →
  changeQueue (step m (FetchSettles i (Some remote) (Some base) now)) = []
  ∧ lastSyncTimestamp (step m (FetchSettles i (Some remote) (Some base) now)) = now
  ∧ effects (step m (FetchSettles i (Some remote) (Some base) now)) = effects m
  ∧ isSyncing (step m (FetchSettles i (Some remote) (Some base) now)) = false
  ∧ inflight (step m (FetchSettles i (Some remote) (Some base) now))
    = delete i (inflight m).
Proof.
  intros Hk Hdiff. simpl. rewrite Hk.
  destruct (resume_afterFetch_cases i (Some remote) (Some base) now m)
    as [(r&b&Hr&Hb&_&Hne&_)|[(e&[Hr|Hb]&_)|(r&b&_&_&_&->)]]; try done.
  by simplify_eq.
Qed.

(** *** Failure keeps the queue *)

Lemma running_through_head m evs : running_through m evs = true → isSyncing m = true.
Proof. destruct evs; simpl; [done|]. by intros [? _]%andb_true_iff. Qed.

(** While the cycle keeps running, an event changes the queue only by
    appending its arrival, and leaves [lastSyncTimestamp] alone. *)
Lemma step_running m e :
  isSyncing m = true → isSyncing (step m e) = true →
  changeQueue (step m e) = changeQueue m ++ arrivals [e]
  ∧ lastSyncTimestamp (step m e) = lastSyncTimestamp m.
Proof.
  intros Hs Hs'. destruct e as [c now|i now|i r base now|i ok now]; simpl in *.
  - by rewrite queueChange_syncing.
  - rewrite app_nil_r.
    destruct (timers m !! i) as [due|]; [|done].
    destruct (due <=? now); [|done].
    unfold performSync. simpl. by rewrite Hs.
  - rewrite app_nil_r.
    destruct (inflight m !! i) as [[|]|]; try done.
    destruct (resume_afterFetch_cases i r base now m)
      as [(?&?&_&_&_&_&Heq)|[(?&_&Heq)|(?&?&_&_&_&Heq)]];
      rewrite Heq in *; done.
  - rewrite app_nil_r.
    destruct (inflight m !! i) as [[|]|]; try done.
    rewrite resume_afterUpload in *. by destruct ok.
Qed.

Lemma running_keeps_queue evs m :
  running_through m evs = true →
  changeQueue (run m evs) = changeQueue m ++ arrivals evs
  ∧ lastSyncTimestamp (run m evs) = lastSyncTimestamp m
  ∧ isSyncing (run m evs) = true.
Proof.
  revert m. induction evs as [|e evs IH]; intros m Hrun; simpl in *.
  - by rewrite app_nil_r.
  - apply andb_true_iff in Hrun as [Hs Hrun].
    destruct (IH _ Hrun) as (Hq & Ht & Hs').
    destruct (step_running m e Hs (running_through_head _ _ Hrun)) as [Hq1 Ht1].
    rewrite Hq, Ht, Hq1, Ht1, <- app_assoc. repeat split; try done.
    f_equal. unfold arrivals. simpl.
    by destruct e.
Qed.

Lemma throws_step m e :
  throws m e = true →
  changeQueue (step m e) = changeQueue m
  ∧ lastSyncTimestamp (step m e) = lastSyncTimestamp m
  ∧ isSyncing (step m e) = false
  ∧ ∃ err, effects (step m e) = effects m ++ [ConsoleError err].
Proof.
  destruct e as [c now|i now|i r base now|i ok now]; simpl; try done.
  - destruct (inflight m !! i) as [[|]|]; try done. intros Hthrow.
    destruct (resume_afterFetch_cases i r base now m)
      as [(?&?&->&->&_)|[(err&_&->)|(?&?&->&->&_)]]; try done.
    simpl. eauto.
  - destruct (inflight m !! i) as [[|]|]; try done. intros Hthrow.
    rewrite resume_afterUpload. destruct ok; [done|]. simpl. eauto.
Qed.

(** C6: if a step of a sync cycle fails (the fetch, the merge or the
    upload throws), then at the end of the cycle the queue holds exactly
    the entries it held when the cycle started followed by the arrivals
    during the cycle, [lastSyncTimestamp] is unchanged, and the error has
    been caught: it is logged and the invocation is over with [isSyncing]
    false. *)
Theorem failed_cycle_keeps_queue (m : manager) (i : nat) (now : Z)
    (evs : list event) (e : event) :
  isSyncing m = false →
  running_through (step m (TimerFires i now)) evs = true →
  throws (run (step m (TimerFires i now)) evs) e = true →
  changeQueue (run m (TimerFires i now :: evs ++ [e])) = changeQueue m ++ arrivals evs
  ∧ lastSyncTimestamp (run m (TimerFires i now :: evs ++ [e])) = lastSyncTimestamp m
  ∧ isSyncing (run m (TimerFires i now :: evs ++ [e])) = false
  ∧ ∃ err, effects (run m (TimerFires i now :: evs ++ [e]))
           = effects (run m (TimerFires i now :: evs)) ++ [ConsoleError err].
Proof.
  intros Hidle Hrun Hthrow.
  rewrite !run_cons, run_snoc.
  destruct (running_keeps_queue _ _ Hrun) as (Hq & Ht & _).
  destruct (throws_step _ _ Hthrow) as (Hq' & Ht' & Hs' & Herr).
  rewrite Hq', Ht', Hq, Ht. repeat split; try done.
  - f_equal. simpl. destruct (timers m !! i) as [due|]; [|done].
    destruct (due <=? now); [|done]. by rewrite performSync_idle.
  - simpl. destruct (timers m !! i) as [due|]; [|done].
    destruct (due <=? now); [|done]. by rewrite performSync_idle.
Qed.

(** *** Scheduling *)

Lemma timer_fires_idle m i due now :
  isSyncing m = false → timers m !! i = Some due → due ≤ now →
  step m (TimerFires i now)
  = with_inflight (inflight m ++ [AwaitFetch])
      (emit CallFetch (with_isSyncing true (with_timers (delete i (timers m)) m))).
Proof.
  intros Hidle Hdue Hle. simpl. rewrite Hdue.
  destruct (due <=? now) eqn:Hd; [|apply Z.leb_gt in Hd; lia].
  by rewrite performSync_idle.
Qed.

Lemma timer_fires_early m i due now :
  timers m !! i = Some due → now < due → step m (TimerFires i now) = m.
Proof.
  intros Hdue Hlt. simpl. rewrite Hdue.
  destruct (due <=? now) eqn:Hd; [apply Z.leb_le in Hd; lia|done].
Qed.

(** C4 (amended): when the running cycle ends, with success or failure,
    [isSyncing] goes back to false and nothing is scheduled: the armed
    timers are those armed before, and no fetch is started. Changes left
    in the queue wait for the next invocation of [performSync]: the next
    enqueue arms a timer for it, and a timer armed earlier starts the next
    cycle, with the queue as it was left, when it fires. *)
Theorem completion_does_not_reschedule (m : manager) (e : event) :
  coherent m → isSyncing m = true → inflight (step m e) = [] →
  isSyncing (step m e) = false
  ∧ timers (step m e) = timers m
  ∧ (effects (step m e) = effects m
     ∨ ∃ err, effects (step m e) = effects m ++ [ConsoleError err])
  ∧ (∀ c now, timers (step (step m e) (Enqueue c now))
              = timers m ++ [now + SYNC_DELAY])
  ∧ (∀ i due now, timers m !! i = Some due → due ≤ now →
       isSyncing (step (step m e) (TimerFires i now)) = true
       ∧ changeQueue (step (step m e) (TimerFires i now)) = changeQueue (step m e)
       ∧ effects (step (step m e) (TimerFires i now))
         = effects (step m e) ++ [CallFetch]).
Proof.
  intros Hc Hs Hnil.
  assert (Hidle : isSyncing (step m e) = false).
  { destruct (step_coherent m e Hc) as [[? _]|[_ [k Hk]]]; [done|].
    by rewrite Hk in Hnil. }
  assert (Ht : timers (step m e) = timers m).
  { destruct e as [c now|i now|i r base now|i ok now]; simpl in *.
    - by rewrite queueChange_syncing.
    - destruct (timers m !! i) as [due|]; [|done].
      destruct (due <=? now); [|done].
      unfold performSync in Hidle. simpl in Hidle. rewrite Hs in Hidle.
      simpl in Hidle. congruence.
    - destruct (inflight m !! i) as [[|]|]; try done.
      destruct (resume_afterFetch_cases i r base now m)
        as [(?&?&_&_&_&_&->)|[(?&_&->)|(?&?&_&_&_&->)]]; done.
    - destruct (inflight m !! i) as [[|]|]; try done.
      rewrite resume_afterUpload. by destruct ok. }
  split; [done|]. split; [done|]. split; [|split].
  - destruct e as [c now|i now|i r base now|i ok now]; simpl in *.
    + rewrite queueChange_syncing by done. by left.
    + destruct (timers m !! i) as [due|]; [|by left].
      destruct (due <=? now); [|by left].
      unfold performSync. simpl. rewrite Hs. by left.
    + destruct (inflight m !! i) as [[|]|]; try by left.
      destruct (resume_afterFetch_cases i r base now m)
        as [(?&?&_&_&_&_&Heq)|[(?&_&->)|(?&?&_&_&_&->)]];
        [|right; simpl; eauto|by left].
      rewrite Heq in Hidle. simpl in Hidle. congruence.
    + destruct (inflight m !! i) as [[|]|]; try by left.
      rewrite resume_afterUpload. destruct ok; [by left|right; simpl; eauto].
  - intros c now. change (step (step m e) (Enqueue c now))
      with (queueChange c now (step m e)).
    rewrite queueChange_idle by done. simpl. by rewrite Ht.
  - intros i due now Hdue Hle.
    rewrite (timer_fires_idle (step m e) i due now) by (rewrite ?Ht; done).
    done.
Qed.

Lemma run_burst_idle burst m :
  isSyncing m = false →
  changeQueue (run m (burst_events burst))
  = changeQueue m ++ arrivals (burst_events burst)
  ∧ timers (run m (burst_events burst))
    = timers m ++ map (fun cn => snd cn + SYNC_DELAY) burst
  ∧ isSyncing (run m (burst_events burst)) = false
  ∧ inflight (run m (burst_events burst)) = inflight m
  ∧ effects (run m (burst_events burst)) = effects m.
Proof.
  revert m. induction burst as [|[c now] burst IH]; intros m Hidle.
  - simpl. by rewrite !app_nil_r.
  - change (run m (burst_events ((c, now) :: burst)))
      with (run (queueChange c now m) (burst_events burst)).
    rewrite queueChange_idle by done.
    set (m1 := with_timers _ _).
    destruct (IH m1 Hidle) as (Hq & Ht & Hs & Hi & He).
    rewrite Hq, Ht, Hs, Hi, He. subst m1. simpl.
    by rewrite <- !app_assoc.
Qed.

(** C5 (amended): for every burst of enqueue calls made while no cycle is
    running, each call appends its change and arms a timer of its own, due
    5000 ms after that call; the timers armed before are neither reset
    nor cancelled, and no timer fires before it is due. The first timer
    to fire starts a cycle; when its fetch settles, the merge receives the
    whole queue, so all the changes of the burst; the other timers call
    [performSync] again when they fire, which does nothing as long as
    that cycle is running. *)
Theorem burst_arms_a_timer_per_enqueue (m : manager) (burst : list (change * Z)) :
  isSyncing m = false →
  changeQueue (run m (burst_events burst))
  = changeQueue m ++ arrivals (burst_events burst)
  ∧ timers (run m (burst_events burst))
    = timers m ++ map (fun cn => snd cn + SYNC_DELAY) burst
  ∧ inflight (run m (burst_events burst)) = inflight m
  ∧ effects (run m (burst_events burst)) = effects m
  ∧ (∀ i due now, timers (run m (burst_events burst)) !! i = Some due → now < due →
       step (run m (burst_events burst)) (TimerFires i now)
       = run m (burst_events burst))
  ∧ (∀ i due now, timers (run m (burst_events burst)) !! i = Some due → due ≤ now →
       isSyncing (run m (burst_events burst ++ [TimerFires i now])) = true
       ∧ changeQueue (run m (burst_events burst ++ [TimerFires i now]))
         = changeQueue m ++ arrivals (burst_events burst)
       ∧ effects (run m (burst_events burst ++ [TimerFires i now]))
         = effects m ++ [CallFetch]
       ∧ (∀ j due' now',
            timers (run m (burst_events burst ++ [TimerFires i now])) !! j
            = Some due' → due' ≤ now' →
            step (run m (burst_events burst ++ [TimerFires i now]))
              (TimerFires j now')
            = with_timers
                (delete j (timers (run m (burst_events burst ++ [TimerFires i now]))))
                (run m (burst_events burst ++ [TimerFires i now])))
       ∧ (∀ k remote base now',
            inflight (run m (burst_events burst ++ [TimerFires i now])) !! k
            = Some AwaitFetch →
            hasChanges
              (mergeChanges base remote (changeQueue m ++ arrivals (burst_events burst)))
              remote = true →
            calculateDiff
              (mergeChanges base remote (changeQueue m ++ arrivals (burst_events burst)))
              remote ≠ ∅ →
            effects (step (run m (burst_events burst ++ [TimerFires i now]))
                       (FetchSettles k (Some remote) (Some base) now'))
            = effects m
              ++ [CallFetch;
                  CallUpload
                    (calculateDiff
                       (mergeChanges base remote
                          (changeQueue m ++ arrivals (burst_events burst)))
                       remote)])).
Proof.
  intros Hidle.
  destruct (run_burst_idle burst m Hidle) as (Hq & Ht & Hs & Hi & He).
  split; [done|]. split; [done|]. split; [done|]. split; [done|]. split.
  - intros i due now Hdue Hlt. by apply (timer_fires_early _ i due now).
  - intros i due now Hdue Hle. rewrite run_snoc.
    rewrite (timer_fires_idle _ i due now) by done.
    set (m' := run m (burst_events burst)) in *. simpl.
    split; [done|]. split; [done|]. split; [by rewrite He|]. split.
    + intros j due' now' Hj Hle'. rewrite Hj.
      destruct (due' <=? now') eqn:Hd; [|apply Z.leb_gt in Hd; lia].
      done.
    + intros k remote base now' Hk Hh Hdiff. rewrite Hk.
      match goal with |- effects (resume k ?b ?st) = _ =>
        destruct (resume_afterFetch_cases k (Some remote) (Some base) now' st)
          as [(r&b'&Hr&Hb&_&_&->)|[(e&[Hr|Hb]&_)|(r&b'&Hr&Hb&Hor&_)]]
      end; try done.
      * simplify_eq. simpl. rewrite Hq, He, <- app_assoc. done.
      * simplify_eq. simpl in Hor. rewrite Hq in Hor. destruct Hor; congruence.
Qed.

End CycleProperties.

(** ** The transfer *)

Import S3MultipartUpload.

Lemma ceil_div_bounds (P M : Z) :
  0 < M → (ceil_div P M - 1) * M < P ≤ ceil_div P M * M.
Proof.
  intros HM. unfold ceil_div.
  pose proof (Z.div_mod (P + M - 1) M ltac:(lia)) as Hdm.
  pose proof (Z.mod_pos_bound (P + M - 1) M HM) as Hmod.
  nia.
Qed.

Lemma ceil_div_step (P M : Z) : 0 < M → ceil_div (P + M) M = ceil_div P M + 1.
Proof.
  intros HM. unfold ceil_div.
  replace (P + M + M - 1) with (P + M - 1 + 1 * M) by lia.
  rewrite Z.div_add by lia. done.
Qed.

Lemma ceil_div_small (P M : Z) : 0 < P ≤ M → ceil_div P M = 1.
Proof.
  intros HP. unfold ceil_div. symmetry.
  apply (Z.div_unique_pos _ _ 1 (P - 1)); lia.
Qed.

(** With enough fuel the chunker cuts the whole payload: the parts, in
    order, make up the payload, none is longer than [M], and there are
    [ceil(P/M)] of them. *)
Lemma split_parts_spec (M : nat) (fuel : nat) (data : list ascii) :
  (0 < M)%nat → (length data ≤ fuel)%nat →
  concat (split_parts fuel M data) = data
  ∧ Forall (fun p => (length p ≤ M)%nat) (split_parts fuel M data)
  ∧ Z.of_nat (length (split_parts fuel M data))
    = ceil_div (Z.of_nat (length data)) (Z.of_nat M).
Proof.
  intros HM. revert data.
  induction fuel as [|fuel IH]; intros data Hfuel.
  - destruct data; [|simpl in Hfuel; lia]. simpl. repeat split; [constructor|].
    unfold ceil_div. simpl. rewrite Z.div_small; lia.
  - destruct data as [|a data].
    { simpl. repeat split; [constructor|].
      unfold ceil_div. simpl. rewrite Z.div_small; lia. }
    assert (Hlen : (0 < length (a :: data))%nat) by (simpl; lia).
    remember (a :: data) as d eqn:Hd.
    assert (Hsplit : split_parts (S fuel) M d
                     = take M d :: split_parts fuel M (drop M d))
      by (by rewrite Hd).
    rewrite Hsplit. clear Hsplit Hd.
    destruct (IH (drop M d)) as (Hcat & Hall & Hcnt).
    { rewrite length_drop. lia. }
    split; [|split].
    + simpl. rewrite Hcat. apply take_drop.
    + constructor; [|done]. rewrite length_take. lia.
    + rewrite length_cons, Nat2Z.inj_succ, Hcnt, length_drop.
      destruct (decide (M ≤ length d)%nat) as [Hle|Hgt].
      * replace (Z.of_nat (length d))
          with (Z.of_nat (length d - M) + Z.of_nat M) by lia.
        rewrite ceil_div_step by lia. lia.
      * replace (length d - M)%nat with 0%nat by lia.
        rewrite (ceil_div_small (Z.of_nat (length d))) by lia.
        unfold ceil_div. simpl. rewrite Z.div_small; lia.
Qed.

(** C9: for every serialized payload of size [P] and part size [M]: if
    [P ≤ M] exactly one unit is sent, by [uploadSingle] when [P < M] and as
    the only part of [uploadMultipart] when [P = M]; and if [P > M] (indeed
    whenever [P ≥ M]) the payload is split into [ceil(P/M)] parts, each of
    size at most [M], in order: the part at position [i] carries index [i]
    and the total count, and the bodies put end to end are the payload.
    The part size set by the constructor is 5,242,880. *)
Theorem chunking_correct (JSON_stringify : snapshot -> list ascii)
    (u : S3MultipartUpload.t) (diff : snapshot) :
  0 < PART_SIZE u →
  (Z.of_nat (length (JSON_stringify diff)) ≤ PART_SIZE u →
     units (S3MultipartUpload.uploadDiff JSON_stringify u diff) = 1%nat)
  ∧ (Z.of_nat (length (JSON_stringify diff)) < PART_SIZE u →
     S3MultipartUpload.uploadDiff JSON_stringify u diff = Single (JSON_stringify diff))
  ∧ (PART_SIZE u ≤ Z.of_nat (length (JSON_stringify diff)) →
     ∃ parts,
       S3MultipartUpload.uploadDiff JSON_stringify u diff = Multipart parts
       ∧ Z.of_nat (length parts)
         = ceil_div (Z.of_nat (length (JSON_stringify diff))) (PART_SIZE u)
       ∧ Forall (fun p => Z.of_nat (length (body p)) ≤ PART_SIZE u) parts
       ∧ (∀ i p, parts !! i = Some p → seq_index p = i ∧ total p = length parts)
       ∧ concat (body <$> parts) = JSON_stringify diff)
  ∧ PART_SIZE S3MultipartUpload.new = 5242880.
Proof.
  intros HM.
  set (data := JSON_stringify diff).
  assert (Hmulti : PART_SIZE u ≤ Z.of_nat (length data) →
    ∃ parts,
      S3MultipartUpload.uploadDiff JSON_stringify u diff = Multipart parts
      ∧ Z.of_nat (length parts) = ceil_div (Z.of_nat (length data)) (PART_SIZE u)
      ∧ Forall (fun p => Z.of_nat (length (body p)) ≤ PART_SIZE u) parts
      ∧ (∀ i p, parts !! i = Some p → seq_index p = i ∧ total p = length parts)
      ∧ concat (body <$> parts) = data).
  { intros Hge. unfold S3MultipartUpload.uploadDiff. fold data.
    destruct (Z.of_nat (length data) <? PART_SIZE u) eqn:Hlt;
      [apply Z.ltb_lt in Hlt; lia|].
    unfold uploadMultipart, chunk.
    destruct (split_parts_spec (Z.to_nat (PART_SIZE u)) (length data) data)
      as (Hcat & Hall & Hcnt); [lia|lia|].
    set (bodies := split_parts _ _ _) in *.
    eexists. split; [done|]. rewrite length_imap.
    split; [by rewrite Hcnt, Z2Nat.id by lia|]. split; [|split].
    - apply Forall_lookup. intros i p Hp.
      rewrite list_lookup_imap in Hp.
      destruct (bodies !! i) as [b|] eqn:Hb; [|done].
      simpl in Hp. injection Hp as <-. simpl.
      rewrite Forall_lookup in Hall. specialize (Hall i b Hb). simpl in Hall. lia.
    - intros i p Hp. rewrite list_lookup_imap in Hp.
      destruct (bodies !! i) as [b|]; [|done].
      simpl in Hp. by injection Hp as <-.
    - transitivity (concat bodies); [|done]. f_equal. apply list_eq. intros i.
      rewrite list_lookup_fmap, list_lookup_imap.
      by destruct (bodies !! i). }
  split; [|split; [|split]]; [| |done|done].
  - intros Hle.
    destruct (decide (Z.of_nat (length data) < PART_SIZE u)) as [Hlt|Hge].
    + unfold S3MultipartUpload.uploadDiff. fold data.
      apply Z.ltb_lt in Hlt. by rewrite Hlt.
    + destruct Hmulti as (parts & -> & Hcnt & _); [lia|].
      simpl. rewrite ceil_div_small in Hcnt by lia. lia.
  - intros Hlt. unfold S3MultipartUpload.uploadDiff. fold data.
    apply Z.ltb_lt in Hlt. by rewrite Hlt.
Qed.

Lemma chunking_correct_witness :
  units (S3MultipartUpload.uploadDiff toy_stringify tiny_parts ∅) = 1%nat
  ∧ ∃ parts,
      S3MultipartUpload.uploadDiff toy_stringify tiny_parts remote_tied = Multipart parts
      ∧ Z.of_nat (length parts) = ceil_div 10 4
      ∧ Forall (fun p => Z.of_nat (length (body p)) ≤ 4) parts
      ∧ (∀ i p, parts !! i = Some p → seq_index p = i ∧ total p = length parts)
      ∧ concat (body <$> parts) = toy_stringify remote_tied.
Proof.
  split.
  - apply (chunking_correct toy_stringify tiny_parts ∅);
      [reflexivity|vm_compute; discriminate].
  - apply (chunking_correct toy_stringify tiny_parts remote_tied);
      [reflexivity|vm_compute; discriminate].
Defined.

(** ** Worked runs of the cycle *)

Lemma one_cycle_in_flight_witness :
  (length (inflight (run_D new_manager busy)) ≤ 1)%nat
  ∧ performSync (run_D new_manager busy) = run_D new_manager busy
  ∧ step_D (run_D new_manager busy) (TimerFires 0 6000)
    = with_timers (delete 0%nat (timers (run_D new_manager busy)))
        (run_D new_manager busy).
Proof.
  destruct (one_cycle_in_flight "D" hasChanges_diff busy _ eq_refl)
    as (H1 & _ & H3 & H4 & _).
  split; [exact H1|]. split.
  - apply H3. reflexivity.
  - apply (H4 0%nat 6000 6000); [reflexivity|reflexivity|lia].
Defined.

Lemma empty_diff_cycle_commits_witness :
  changeQueue (step_D (run_D new_manager busy)
                 (FetchSettles 0 (Some remote_newer) (Some ∅) 5100)) = []
  ∧ lastSyncTimestamp (step_D (run_D new_manager busy)
                         (FetchSettles 0 (Some remote_newer) (Some ∅) 5100)) = 5100
  ∧ effects (step_D (run_D new_manager busy)
               (FetchSettles 0 (Some remote_newer) (Some ∅) 5100))
    = effects (run_D new_manager busy)
  ∧ isSyncing (step_D (run_D new_manager busy)
                 (FetchSettles 0 (Some remote_newer) (Some ∅) 5100)) = false
  ∧ inflight (step_D (run_D new_manager busy)
                (FetchSettles 0 (Some remote_newer) (Some ∅) 5100))
    = delete 0%nat (inflight (run_D new_manager busy)).
Proof.
  apply (empty_diff_cycle_commits "D" hasChanges_diff (run_D new_manager busy) 0
           remote_newer ∅ 5100).
  - reflexivity.
  - vm_compute. reflexivity.
Defined.

Lemma failed_cycle_keeps_queue_witness :
  changeQueue
    (run_D (run_D new_manager [Enqueue edit_a 0])
       (TimerFires 0 5000
        :: [Enqueue edit_b 5050; FetchSettles 0 (Some ∅) (Some ∅) 5100;
            Enqueue edit_c 5200]
        ++ [UploadSettles 0 false 5300]))
  = changeQueue (run_D new_manager [Enqueue edit_a 0])
    ++ arrivals "D" [Enqueue edit_b 5050; FetchSettles 0 (Some ∅) (Some ∅) 5100;
                     Enqueue edit_c 5200]
  ∧ lastSyncTimestamp
      (run_D (run_D new_manager [Enqueue edit_a 0])
         (TimerFires 0 5000
          :: [Enqueue edit_b 5050; FetchSettles 0 (Some ∅) (Some ∅) 5100;
              Enqueue edit_c 5200]
          ++ [UploadSettles 0 false 5300]))
    = lastSyncTimestamp (run_D new_manager [Enqueue edit_a 0])
  ∧ isSyncing
      (run_D (run_D new_manager [Enqueue edit_a 0])
         (TimerFires 0 5000
          :: [Enqueue edit_b 5050; FetchSettles 0 (Some ∅) (Some ∅) 5100;
              Enqueue edit_c 5200]
          ++ [UploadSettles 0 false 5300])) = false
  ∧ ∃ err,
      effects
        (run_D (run_D new_manager [Enqueue edit_a 0])
           (TimerFires 0 5000
            :: [Enqueue edit_b 5050; FetchSettles 0 (Some ∅) (Some ∅) 5100;
                Enqueue edit_c 5200]
            ++ [UploadSettles 0 false 5300]))
      = effects
          (run_D (run_D new_manager [Enqueue edit_a 0])
             (TimerFires 0 5000
              :: [Enqueue edit_b 5050; FetchSettles 0 (Some ∅) (Some ∅) 5100;
                  Enqueue edit_c 5200]))
        ++ [ConsoleError err].
Proof.
  apply (failed_cycle_keeps_queue "D" hasChanges_diff
           (run_D new_manager [Enqueue edit_a 0]) 0 5000
           [Enqueue edit_b 5050; FetchSettles 0 (Some ∅) (Some ∅) 5100;
            Enqueue edit_c 5200]
           (UploadSettles 0 false 5300)).
  - reflexivity.
  - vm_compute. reflexivity.
  - vm_compute. reflexivity.
Defined.

(** C4, as stated, fails: a cycle whose fetch fails ends with the change
    still queued, no timer armed and nothing in flight, so no sync is
    scheduled. *)
Lemma completion_reschedules_counterexample :
  ¬ (∀ (evs : list event) (e : event),
       isSyncing (run_D new_manager evs) = true →
       isSyncing (step_D (run_D new_manager evs) e) = false →
       changeQueue (step_D (run_D new_manager evs) e) ≠ [] →
       timers (step_D (run_D new_manager evs) e) ≠ []
       ∨ inflight (step_D (run_D new_manager evs) e) ≠ []).
Proof.
  intros H.
  destruct (H [Enqueue edit_a 0; TimerFires 0 5000] (FetchSettles 0 None None 5100))
    as [Ht|Hi].
  - reflexivity.
  - reflexivity.
  - vm_compute. discriminate.
  - apply Ht. reflexivity.
  - apply Hi. reflexivity.
Qed.

Lemma completion_does_not_reschedule_witness :
  isSyncing (step_D (run_D new_manager busy) (FetchSettles 0 None None 5100)) = false
  ∧ timers (step_D (run_D new_manager busy) (FetchSettles 0 None None 5100))
    = timers (run_D new_manager busy)
  ∧ timers (step_D (step_D (run_D new_manager busy) (FetchSettles 0 None None 5100))
              (Enqueue edit_c 5200))
    = timers (run_D new_manager busy) ++ [5200 + SYNC_DELAY]
  ∧ isSyncing (step_D (step_D (run_D new_manager busy) (FetchSettles 0 None None 5100))
                 (TimerFires 0 6000)) = true
  ∧ changeQueue (step_D (step_D (run_D new_manager busy) (FetchSettles 0 None None 5100))
                   (TimerFires 0 6000))
    = changeQueue (step_D (run_D new_manager busy) (FetchSettles 0 None None 5100)).
Proof.
  destruct (completion_does_not_reschedule "D" hasChanges_diff
              (run_D new_manager busy) (FetchSettles 0 None None 5100))
    as (H1 & H2 & _ & H4 & H5).
  - right. split; [reflexivity|]. exists AwaitFetch. reflexivity.
  - reflexivity.
  - reflexivity.
  - split; [exact H1|]. split; [exact H2|]. split; [apply H4|].
    destruct (H5 0%nat 6000 6000) as (H6 & H7 & _); [reflexivity|lia|].
    split; [exact H6|exact H7].
Defined.

(** C5, as stated, fails: three enqueues within two seconds arm three
    timers, and once the first cycle is over the second timer starts a
    second cycle. *)
Lemma burst_single_timer_counterexample :
  ¬ (∀ burst : list (change * Z), burst ≠ [] →
       length (timers (run_D new_manager (burst_events burst))) = 1%nat)
  ∧ timers (run_D new_manager (burst_events burst3)) = [5000; 6000; 7000]
  ∧ effects (run_D new_manager
               (burst_events burst3
                ++ [TimerFires 0 5000; FetchSettles 0 (Some ∅) (Some ∅) 5100;
                    UploadSettles 0 true 5200; TimerFires 0 6000]))
    = [CallFetch;
       CallUpload {["a" := Change "a" "p" 0 "D"; "b" := Change "b" "q" 1000 "D";
                    "c" := Change "c" "r" 2000 "D"]};
       CallFetch].
Proof.
  split; [|split].
  - intros H. specialize (H burst3). vm_compute in H.
    assert (Hne : burst3 ≠ []) by discriminate.
    specialize (H Hne). discriminate H.
  - reflexivity.
  - vm_compute. reflexivity.
Qed.

Lemma burst_arms_a_timer_per_enqueue_witness :
  changeQueue (run_D new_manager (burst_events burst3))
  = changeQueue new_manager ++ arrivals "D" (burst_events burst3)
  ∧ timers (run_D new_manager (burst_events burst3))
    = timers new_manager ++ map (fun cn => snd cn + SYNC_DELAY) burst3
  ∧ step_D (run_D new_manager (burst_events burst3)) (TimerFires 0 4000)
    = run_D new_manager (burst_events burst3)
  ∧ isSyncing (run_D new_manager (burst_events burst3 ++ [TimerFires 0 5000])) = true
  ∧ effects (step_D (run_D new_manager (burst_events burst3 ++ [TimerFires 0 5000]))
               (FetchSettles 0 (Some ∅) (Some ∅) 5100))
    = effects new_manager
      ++ [CallFetch;
          CallUpload
            (calculateDiff
               (mergeChanges ∅ ∅
                  (changeQueue new_manager ++ arrivals "D" (burst_events burst3)))
               ∅)].
Proof.
  destruct (burst_arms_a_timer_per_enqueue "D" hasChanges_diff new_manager burst3)
    as (H1 & H2 & _ & _ & H5 & H6).
  - reflexivity.
  - split; [exact H1|]. split; [exact H2|]. split.
    + apply (H5 0%nat 5000 4000); [reflexivity|lia].
    + destruct (H6 0%nat 5000 5000) as (Ha & _ & _ & _ & Hf); [reflexivity|lia|].
      split; [exact Ha|].
      apply (Hf 0%nat ∅ ∅ 5100).
      * reflexivity.
      * vm_compute. reflexivity.
      * vm_compute. discriminate.
Defined.

(** C1: a change enqueued while a sync cycle is running must still be in
    the queue when the cycle ends. The code breaks this on its success
    path: in the run [upload_race] the edit of "b" arrives while the
    upload of "a" is in flight, is in the queue while the cycle runs, and
    is gone when the cycle ends: the queue is empty, no timer is armed, and
    the only upload ever made carries "a" alone. *)
Theorem enqueue_during_upload_is_lost :
  changeQueue (run_D new_manager (take 4 upload_race))
  = [Change "a" "p" 0 "D"; Change "b" "q" 5200 "D"]
  ∧ isSyncing (run_D new_manager (take 4 upload_race)) = true
  ∧ changeQueue (run_D new_manager upload_race) = []
  ∧ isSyncing (run_D new_manager upload_race) = false
  ∧ timers (run_D new_manager upload_race) = []
  ∧ inflight (run_D new_manager upload_race) = []
  ∧ effects (run_D new_manager upload_race)
    = [CallFetch; CallUpload {["a" := Change "a" "p" 0 "D"]}].
Proof. vm_compute. repeat split. Qed.

(** * Further properties of the code *)

(** ** mergeChanges *)

Lemma str_gt_irrefl (a : string) : str_gt a a = false.
Proof.
  unfold str_gt, String.ltb.
  pose proof (String.compare_antisym a a) as H.
  destruct (String.compare a a); simpl in H; done.
Qed.

Lemma accepts_spec (remoteState : snapshot) (c : change) :
  accepts remoteState c = true →
  (∀ r, remoteState !! id c = Some r →
     timestamp r < timestamp c
     ∨ (timestamp r = timestamp c ∧ str_gt (deviceId c) (deviceId r) = true)).
Proof.
  unfold accepts, js_get. destruct (remoteState !! id c) as [r|].
  - rewrite orb_true_iff, andb_true_iff, Z.ltb_lt, Z.eqb_eq.
    intros H r' [= <-]. done.
  - intros _ r. discriminate.
Qed.

(** X1: the merge invents nothing. Every entry of the merged snapshot is
    either the remote entry at that key or a pending change with that id
    which beats the remote entry: newer, or as old with a greater device
    id. *)
Theorem merge_entry_origin (baseState remoteState : snapshot)
    (l : list change) (k : string) (v : change) :
  mergeChanges baseState remoteState l !! k = Some v →
  remoteState !! k = Some v
  ∨ (v ∈ l ∧ id v = k
     ∧ ∀ r, remoteState !! k = Some r →
         timestamp r < timestamp v
         ∨ (timestamp r = timestamp v ∧ str_gt (deviceId v) (deviceId r) = true)).
Proof.
  rewrite merge_lookup.
  destruct (last (filter (fun c => id c = k ∧ accepts remoteState c = true) l))
    as [w|] eqn:Hlast; [|by left].
  intros [= ->]. right.
  apply last_Some_elem_of, list_elem_of_filter in Hlast as [[Hid Hacc] Hin].
  split; [done|]. split; [done|].
  rewrite <- Hid. by apply accepts_spec.
Qed.

Lemma merge_entry_origin_witness :
  remote_a !! "a" = Some (Change "a" "q" 200 "B")
  ∨ (Change "a" "q" 200 "B" ∈ [Change "a" "p" 100 "B"; Change "a" "q" 200 "B"]
     ∧ id (Change "a" "q" 200 "B") = "a"
     ∧ ∀ r, remote_a !! "a" = Some r →
         timestamp r < timestamp (Change "a" "q" 200 "B")
         ∨ (timestamp r = timestamp (Change "a" "q" 200 "B")
            ∧ str_gt (deviceId (Change "a" "q" 200 "B")) (deviceId r) = true)).
Proof.
  apply (merge_entry_origin ∅ remote_a
           [Change "a" "p" 100 "B"; Change "a" "q" 200 "B"] "a").
  reflexivity.
Defined.

(** X2: the merge never loses a remote key and never moves a record back
    in time: where the remote snapshot has an entry, the merged snapshot
    has one whose timestamp is at least the remote's. *)
Theorem merge_timestamp_monotone (baseState remoteState : snapshot)
    (l : list change) (k : string) (r : change) :
  remoteState !! k = Some r →
  ∃ v, mergeChanges baseState remoteState l !! k = Some v
       ∧ timestamp r ≤ timestamp v.
Proof.
  intros Hr. rewrite merge_lookup.
  destruct (last (filter (fun c => id c = k ∧ accepts remoteState c = true) l))
    as [w|] eqn:Hlast.
  - exists w. split; [done|].
    apply last_Some_elem_of, list_elem_of_filter in Hlast as [[Hid Hacc] _].
    pose proof (accepts_spec _ _ Hacc) as Hspec; clear Hacc; rename Hspec into Hacc. rewrite Hid in Hacc.
    destruct (Hacc r Hr) as [?|[? _]]; lia.
  - exists r. split; [done|lia].
Qed.

Lemma merge_timestamp_monotone_witness :
  ∃ v, mergeChanges ∅ remote_a
         [Change "a" "p" 100 "B"; Change "a" "q" 90 "B"] !! "a" = Some v
       ∧ timestamp (Change "a" "" 100 "A") ≤ timestamp v.
Proof.
  apply (merge_timestamp_monotone ∅ remote_a
           [Change "a" "p" 100 "B"; Change "a" "q" 90 "B"] "a"
           (Change "a" "" 100 "A")).
  reflexivity.
Defined.

Lemma merge_none_accepted (baseState remoteState : snapshot) (l : list change) :
  Forall (fun c => accepts remoteState c = false) l →
  mergeChanges baseState remoteState l = remoteState.
Proof.
  intros Hall. apply map_eq. intros k. rewrite merge_lookup.
  destruct (last (filter (fun c => id c = k ∧ accepts remoteState c = true) l))
    as [w|] eqn:Hlast; [|done].
  apply last_Some_elem_of, list_elem_of_filter in Hlast as [[_ Hacc] Hin].
  rewrite Forall_forall in Hall. specialize (Hall w Hin). congruence.
Qed.

(** X3: the merge returns the remote snapshot unchanged exactly when no
    pending change is written: each one either loses against the remote
    entry for its id (older, or as old without a greater device id), or
    has an id that the remote lacks and that names a member inherited from
    [Object.prototype], which the merge takes for a remote version. One
    winning change is enough to make the merged snapshot differ from the
    remote one. *)
Theorem merge_unchanged_iff (baseState remoteState : snapshot) (l : list change) :
  mergeChanges baseState remoteState l = remoteState
  ↔ Forall (fun c => (∃ r, remoteState !! id c = Some r
                      ∧ (timestamp c < timestamp r
                         ∨ (timestamp c = timestamp r
                            ∧ str_gt (deviceId c) (deviceId r) = false)))
                     ∨ (remoteState !! id c = None ∧ inherited (id c) = true)) l.
Proof.
  split.
  - intros Heq. apply Forall_forall. intros c Hin.
    destruct (accepts remoteState c) eqn:Hacc.
    + exfalso.
      assert (Hk : mergeChanges baseState remoteState l !! id c
                   = remoteState !! id c) by (by rewrite Heq).
      rewrite merge_lookup in Hk.
      destruct (last (filter (fun c' => id c' = id c ∧ accepts remoteState c' = true) l))
        as [w|] eqn:Hlast.
      * apply last_Some_elem_of, list_elem_of_filter in Hlast as [[Hid Haw] _].
        pose proof (accepts_spec _ _ Haw) as Hspec; clear Haw; rename Hspec into Haw. rewrite Hid in Haw.
        symmetry in Hk. destruct (Haw w Hk) as [?|[_ Hgt]]; [lia|].
        by rewrite str_gt_irrefl in Hgt.
      * apply last_None in Hlast.
        assert (Hc : c ∈ filter (fun c' => id c' = id c ∧ accepts remoteState c' = true) l)
          by (by apply list_elem_of_filter).
        rewrite Hlast in Hc. by apply elem_of_nil in Hc.
    + unfold accepts, js_get in Hacc.
      destruct (remoteState !! id c) as [r|].
      * left. exists r. split; [done|].
        apply orb_false_iff in Hacc as [Hlt Heqd]. apply Z.ltb_ge in Hlt.
        apply andb_false_iff in Heqd as [Hne|Hgt].
        -- apply Z.eqb_neq in Hne. left. lia.
        -- destruct (decide (timestamp c = timestamp r)); [right; done|left; lia].
      * right. split; [done|]. by destruct (inherited (id c)).
  - intros Hall. apply merge_none_accepted.
    eapply Forall_impl; [exact Hall|].
    intros c [(r & Hr & Hlose)|[Hnone Hinh]]; simpl.
    + unfold accepts, js_get. rewrite Hr.
      destruct Hlose as [Hlt|[Heq Hgt]].
      * assert ((timestamp r <? timestamp c) = false) as -> by (apply Z.ltb_ge; lia).
        assert ((timestamp r =? timestamp c) = false) as -> by (apply Z.eqb_neq; lia).
        done.
      * rewrite Heq, Z.ltb_irrefl, Z.eqb_refl, Hgt. done.
    + unfold accepts, js_get. by rewrite Hnone, Hinh.
Qed.

(** ** calculateDiff *)

(** X4: the diff of a snapshot against itself is empty. *)
Theorem diff_self_empty (S : snapshot) : calculateDiff S S = ∅.
Proof.
  apply map_eq. intros k. rewrite calculateDiff_lookup, lookup_empty.
  destruct (String.eqb k "__proto__"); [done|].
  destruct (S !! k) as [v|] eqn:Hk; [|done].
  simpl. unfold differs, js_get. by rewrite Hk, Z.eqb_refl.
Qed.

(** X5: the diff is empty exactly when every key of the new state, the key
    "__proto__" apart, is in the old state with the same timestamp.
    Nothing else is compared: a record whose payload or device id changed
    under the same timestamp, and a key that is gone from the new state,
    produce no diff; and an entry under "__proto__" never reaches the diff,
    because assigning it sets the diff's prototype instead of a key. *)
Theorem diff_empty_iff (newState oldState : snapshot) :
  calculateDiff newState oldState = ∅
  ↔ ∀ k v, newState !! k = Some v →
      k = "__proto__" ∨ ∃ o, oldState !! k = Some o ∧ timestamp o = timestamp v.
Proof.
  split.
  - intros Hempty k v Hk.
    assert (Hd : calculateDiff newState oldState !! k = None)
      by (by rewrite Hempty, lookup_empty).
    rewrite calculateDiff_lookup, Hk in Hd. simpl in Hd.
    destruct (String.eqb k "__proto__") eqn:Hp; [left; by apply String.eqb_eq|].
    right. unfold differs, js_get in Hd.
    destruct (oldState !! k) as [o|]; [|by destruct (inherited k)].
    exists o. split; [done|].
    destruct (timestamp o =? timestamp v) eqn:Heq; [by apply Z.eqb_eq|done].
  - intros Hall. apply map_eq. intros k.
    rewrite calculateDiff_lookup, lookup_empty.
    destruct (String.eqb k "__proto__") eqn:Hp; [done|].
    destruct (newState !! k) as [v|] eqn:Hk; [|done].
    destruct (Hall k v Hk) as [->|(o & Ho & Hts)]; [discriminate Hp|].
    simpl. unfold differs, js_get. by rewrite Ho, Hts, Z.eqb_refl.
Qed.

(** X6: the diff only ever holds entries of the new state, as they are
    there; a key that is in the old state and not in the new one is not in
    the diff, so a diff cannot express a deletion. *)
Theorem diff_subseteq (newState oldState : snapshot) :
  calculateDiff newState oldState ⊆ newState.
Proof.
  apply map_subseteq_spec. intros k v. rewrite calculateDiff_lookup.
  destruct (String.eqb k "__proto__"); [done|].
  destruct (newState !! k) as [w|]; [|done].
  simpl. destruct (differs oldState k w); [done|discriminate].
Qed.

(** X7: laying the diff over the old state brings every key of the new
    state, the key "__proto__" apart, to the new state's timestamp, and to
    the new state's very record wherever that key was missing or had
    another timestamp; keys that the new state lacks, and the key
    "__proto__", stay as they were in the old state. *)
Theorem diff_patches_old (newState oldState : snapshot) (k : string) :
  (∀ v, newState !! k = Some v → k ≠ "__proto__" →
     ∃ w, (calculateDiff newState oldState ∪ oldState) !! k = Some w
          ∧ timestamp w = timestamp v
          ∧ (differs oldState k v = true → w = v))
  ∧ (newState !! k = None ∨ k = "__proto__" →
     (calculateDiff newState oldState ∪ oldState) !! k = oldState !! k).
Proof.
  split.
  - intros v Hk Hp. apply String.eqb_neq in Hp.
    destruct (differs oldState k v) eqn:Hd.
    + exists v. split; [|done].
      apply lookup_union_Some_l.
      by rewrite calculateDiff_lookup, Hp, Hk; simpl; rewrite Hd.
    + unfold differs, js_get in Hd.
      destruct (oldState !! k) as [o|] eqn:Ho; [|by destruct (inherited k)].
      exists o. split; [|split; [|done]].
      * rewrite lookup_union_r; [done|].
        rewrite calculateDiff_lookup, Hp, Hk. simpl.
        unfold differs, js_get. by rewrite Ho, Hd.
      * apply negb_false_iff, Z.eqb_eq in Hd. done.
  - intros Hk. rewrite lookup_union_r; [done|].
    rewrite calculateDiff_lookup.
    destruct Hk as [Hk| ->]; [|done].
    rewrite Hk. by destruct (String.eqb k "__proto__").
Qed.

Lemma diff_patches_old_witness :
  (∃ w, (calculateDiff remote_tied remote_a ∪ remote_a) !! "a" = Some w
        ∧ timestamp w = timestamp (Change "a" "" 100 "X")
        ∧ (differs remote_a "a" (Change "a" "" 100 "X") = true
           → w = Change "a" "" 100 "X"))
  ∧ (calculateDiff remote_tied remote_a ∪ remote_a) !! "z" = remote_a !! "z".
Proof.
  destruct (diff_patches_old remote_tied remote_a "a") as [H1 _].
  destruct (diff_patches_old remote_tied remote_a "z") as [_ H2].
  split; [apply H1; [reflexivity|discriminate]|apply H2; left; reflexivity].
Defined.

(** ** The merge followed by the diff *)

(** X8: what a cycle uploads comes from the queue. Every entry of the diff
    between the merged and the remote snapshot is a pending change, filed
    under its own id, whose id the remote lacks or whose timestamp is
    strictly greater than the remote entry's; remote records are never sent
    back. *)
Theorem diff_of_merge_is_local (baseState remoteState : snapshot)
    (l : list change) (k : string) (v : change) :
  calculateDiff (mergeChanges baseState remoteState l) remoteState !! k = Some v →
  v ∈ l ∧ id v = k
  ∧ (remoteState !! k = None
     ∨ ∃ r, remoteState !! k = Some r ∧ timestamp r < timestamp v).
Proof.
  rewrite calculateDiff_lookup.
  destruct (String.eqb k "__proto__"); [done|].
  destruct (mergeChanges baseState remoteState l !! k) as [w|] eqn:Hm; [|done].
  simpl. destruct (differs remoteState k w) eqn:Hd; [|done].
  intros [= ->]. unfold differs, js_get in Hd.
  rewrite merge_lookup in Hm.
  destruct (last (filter (fun c => id c = k ∧ accepts remoteState c = true) l))
    as [w|] eqn:Hlast.
  - injection Hm as ->.
    apply last_Some_elem_of, list_elem_of_filter in Hlast as [[Hid Hacc] Hin].
    split; [done|]. split; [done|].
    destruct (remoteState !! k) as [r|] eqn:Hr; [|by left].
    right. exists r. split; [done|].
    pose proof (accepts_spec _ _ Hacc) as Hspec; clear Hacc; rename Hspec into Hacc. rewrite Hid in Hacc.
    destruct (Hacc r Hr) as [?|[Heq _]]; [done|].
    rewrite Heq, Z.eqb_refl in Hd. done.
  - rewrite Hm, Z.eqb_refl in Hd. done.
Qed.

Lemma diff_of_merge_is_local_witness :
  Change "a" "q" 200 "B" ∈ [Change "a" "p" 100 "B"; Change "a" "q" 200 "B"]
  ∧ id (Change "a" "q" 200 "B") = "a"
  ∧ (remote_a !! "a" = None
     ∨ ∃ r, remote_a !! "a" = Some r ∧ timestamp r < timestamp (Change "a" "q" 200 "B")).
Proof.
  apply (diff_of_merge_is_local ∅ remote_a
           [Change "a" "p" 100 "B"; Change "a" "q" 200 "B"] "a").
  reflexivity.
Defined.

(** ** The cycle, the queue and the timers *)

Lemma count_app {A : Type} (p : A -> bool) (l1 l2 : list A) :
  count p (l1 ++ l2) = (count p l1 + count p l2)%nat.
Proof. induction l1 as [|x l1 IH]; simpl; [done|]. rewrite IH. lia. Qed.

Lemma count_delete {A : Type} (p : A -> bool) (l : list A) (i : nat) :
  (count p (delete i l) ≤ count p l)%nat.
Proof.
  revert i. induction l as [|x l IH]; intros [|i]; simpl; try lia.
  specialize (IH i). simpl in IH. lia.
Qed.

Lemma count_insert {A : Type} (p : A -> bool) (l : list A) (i : nat) (x y : A) :
  l !! i = Some x →
  (count p (<[i := y]> l) + (if p x then 1 else 0)
   = count p l + (if p y then 1 else 0))%nat.
Proof.
  revert i. induction l as [|z l IH]; intros [|i] Hi; simpl in *; try done.
  - injection Hi as ->. lia.
  - specialize (IH i Hi). lia.
Qed.

Lemma accepts_false_of_loses (remoteState : snapshot) (c r : change) :
  remoteState !! id c = Some r →
  timestamp c < timestamp r
  ∨ (timestamp c = timestamp r ∧ str_gt (deviceId c) (deviceId r) = false) →
  accepts remoteState c = false.
Proof.
  intros Hr Hlose. unfold accepts, js_get. rewrite Hr.
  destruct Hlose as [Hlt|[Heq Hgt]].
  - assert ((timestamp r <? timestamp c) = false) as -> by (apply Z.ltb_ge; lia).
    assert ((timestamp r =? timestamp c) = false) as -> by (apply Z.eqb_neq; lia).
    done.
  - rewrite Heq, Z.ltb_irrefl, Z.eqb_refl, Hgt. done.
Qed.

Lemma calculateDiff_refl (S : snapshot) : calculateDiff S S = ∅.
Proof.
  apply map_eq. intros k. rewrite calculateDiff_lookup, lookup_empty.
  destruct (String.eqb k "__proto__"); [done|].
  destruct (S !! k) as [v|] eqn:Hk; [|done].
  simpl. unfold differs, js_get. by rewrite Hk, Z.eqb_refl.
Qed.

Section CycleExtras.
Variable device : string.
Variable hasChanges : snapshot -> snapshot -> bool.

Abbreviation step := (step device hasChanges).
Abbreviation run := (run device hasChanges).
Abbreviation arrivals := (arrivals device).

(** Every way an event can change the manager. *)
Lemma step_shape (m : manager) (e : event) :
  step m e = m
  ∨ (∃ c now, e = Enqueue c now ∧ isSyncing m = true
       ∧ step m e = with_changeQueue (changeQueue m ++ [stamp device c now]) m)
  ∨ (∃ c now, e = Enqueue c now ∧ isSyncing m = false
       ∧ step m e = with_timers (timers m ++ [now + SYNC_DELAY])
                      (with_changeQueue (changeQueue m ++ [stamp device c now]) m))
  ∨ (∃ i due, timers m !! i = Some due ∧ isSyncing m = true
       ∧ step m e = with_timers (delete i (timers m)) m)
  ∨ (∃ i due, timers m !! i = Some due ∧ isSyncing m = false
       ∧ step m e = with_inflight (inflight m ++ [AwaitFetch])
                      (emit CallFetch
                         (with_isSyncing true (with_timers (delete i (timers m)) m))))
  ∨ (∃ i d, inflight m !! i = Some AwaitFetch ∧ d ≠ ∅
       ∧ step m e = with_inflight (<[i := AwaitUpload]> (inflight m))
                      (emit (CallUpload d) m))
  ∨ (∃ i k err, inflight m !! i = Some k
       ∧ step m e = with_inflight (delete i (inflight m))
                      (with_isSyncing false (emit (ConsoleError err) m)))
  ∨ (∃ i k now, inflight m !! i = Some k
       ∧ step m e = with_inflight (delete i (inflight m))
                      (with_isSyncing false
                         (with_lastSyncTimestamp now (with_changeQueue [] m)))).
Proof.
  destruct e as [c now|i now|i r base now|i ok now]; simpl.
  - destruct (isSyncing m) eqn:Hs.
    + right; left. exists c, now. by rewrite queueChange_syncing.
    + right; right; left. exists c, now. by rewrite queueChange_idle.
  - destruct (timers m !! i) as [due|] eqn:Hi; [|by left].
    destruct (due <=? now); [|by left].
    destruct (isSyncing m) eqn:Hs.
    + do 3 right; left. exists i, due. unfold performSync. simpl. by rewrite Hs.
    + do 4 right; left. exists i, due. by rewrite performSync_idle.
  - destruct (inflight m !! i) as [[|]|] eqn:Hk; try by left.
    destruct (resume_afterFetch_cases hasChanges i r base now m)
      as [(?&?&_&_&_&Hne&->)|[(err&_&->)|(?&?&_&_&_&->)]].
    + do 5 right; left. eauto.
    + do 6 right; left. eauto.
    + do 7 right. eauto.
  - destruct (inflight m !! i) as [[|]|] eqn:Hk; try by left.
    rewrite resume_afterUpload. destruct ok.
    + do 7 right. eauto.
    + do 6 right; left. eauto.
Qed.

Ltac step_cases m e :=
  destruct (step_shape m e)
    as [->|[(?c&?now&?He&?Hs&->)|[(?c&?now&?He&?Hs&->)|[(?i&?due&?Hi&?Hs&->)
       |[(?i&?due&?Hi&?Hs&->)|[(?i&?d&?Hi&?Hd&->)|[(?i&?k&?err&?Hi&->)
       |(?i&?k&?now&?Hi&->)]]]]]]]; simpl.

(** X9: changes that lose against the remote are discarded for good. If,
    when the fetch settles, every queued change loses against the remote
    entry for its id (in particular if the queue is empty), the cycle
    uploads nothing, logs nothing, and still empties the queue and sets
    [lastSyncTimestamp]. *)
Theorem stale_changes_are_discarded (m : manager) (i : nat)
    (remote base : snapshot) (now : Z) :
  inflight m !! i = Some AwaitFetch →
  Forall (fun c => ∃ r, remote !! id c = Some r
                   ∧ (timestamp c < timestamp r
                      ∨ (timestamp c = timestamp r
                         ∧ str_gt (deviceId c) (deviceId r) = false)))
         (changeQueue m) →
  changeQueue (step m (FetchSettles i (Some remote) (Some base) now)) = []
  ∧ effects (step m (FetchSettles i (Some remote) (Some base) now)) = effects m
  ∧ lastSyncTimestamp (step m (FetchSettles i (Some remote) (Some base) now)) = now
  ∧ isSyncing (step m (FetchSettles i (Some remote) (Some base) now)) = false.
Proof.
  intros Hk Hstale.
  assert (Hm : mergeChanges base remote (changeQueue m) = remote).
  { apply merge_none_accepted. eapply Forall_impl; [exact Hstale|].
    intros c (r & Hr & Hl). simpl. by apply (accepts_false_of_loses remote c r). }
  simpl. rewrite Hk.
  destruct (resume_afterFetch_cases hasChanges i (Some remote) (Some base) now m)
    as [(r&b&Hr&Hb&_&Hne&_)|[(e&[Hr|Hb]&_)|(r&b&_&_&_&->)]]; try done.
  simplify_eq. rewrite Hm, calculateDiff_refl in Hne. done.
Qed.

(** X10: every change in the queue carries this device's id, whatever the
    caller passed in: the queue only grows by [queueChange], which stamps
    the id over the caller's. *)
Theorem queue_carries_own_device (evs : list event) (c : change) :
  c ∈ changeQueue (run new_manager evs) → deviceId c = device.
Proof.
  assert (Hgen : ∀ evs m, Forall (fun c => deviceId c = device) (changeQueue m) →
            Forall (fun c => deviceId c = device) (changeQueue (run m evs))).
  { clear. intros evs. induction evs as [|e evs IH]; intros m Hm; [done|].
    rewrite run_cons. apply IH.
    step_cases m e; try done; apply Forall_app; split; try done;
      by repeat constructor. }
  intros Hin. specialize (Hgen evs new_manager (Forall_nil_2 _)).
  rewrite Forall_forall in Hgen. by apply Hgen.
Qed.


(** X12: when [lastSyncTimestamp] changes, the queue has just been emptied
    and the cycle is over: the timestamp is written by the commit and by
    nothing else. *)
Theorem timestamp_moves_only_on_commit (m : manager) (e : event) :
  lastSyncTimestamp (step m e) ≠ lastSyncTimestamp m →
  changeQueue (step m e) = [] ∧ isSyncing (step m e) = false.
Proof.
  step_cases m e; intros Hmoved.
  all: try (by exfalso; apply Hmoved).
  done.
Qed.

Lemma step_accounting (m : manager) (e : event) :
  (count is_fetch (effects (step m e)) + length (timers (step m e))
   ≤ count is_fetch (effects m) + length (timers m)
     + (if is_enqueue e then 1 else 0))%nat
  ∧ (count is_upload (effects m) + count is_await_fetch (inflight m)
     ≤ count is_fetch (effects m) →
     count is_upload (effects (step m e)) + count is_await_fetch (inflight (step m e))
     ≤ count is_fetch (effects (step m e)))%nat.
Proof.
  step_cases m e; rewrite ?count_app, ?length_app; simpl;
    try (subst e; simpl); try (split; lia).
  - split; [|lia].
    rewrite length_delete by eauto.
    apply lookup_lt_Some in Hi. lia.
  - split; [|lia].
    rewrite length_delete by eauto.
    apply lookup_lt_Some in Hi. lia.
  - split; [lia|].
    pose proof (count_insert is_await_fetch (inflight m) i AwaitFetch AwaitUpload Hi)
      as Hc. simpl in Hc. lia.
  - split; [lia|].
    pose proof (count_delete is_await_fetch (inflight m) i). lia.
  - split; [lia|].
    pose proof (count_delete is_await_fetch (inflight m) i). lia.
Qed.

(** X13: the manager never fetches without having been asked to. Over any
    sequence of events from construction on, the fetches started plus the
    timers still armed never exceed the calls of [queueChange], and there
    are never more uploads than fetches. *)
Theorem fetches_are_paid_by_enqueues (evs : list event) :
  (count is_fetch (effects (run new_manager evs)) + length (timers (run new_manager evs))
   ≤ count is_enqueue evs)%nat
  ∧ (count is_upload (effects (run new_manager evs))
     ≤ count is_fetch (effects (run new_manager evs)))%nat.
Proof.
  assert (Hgen : ∀ evs m,
    (count is_upload (effects m) + count is_await_fetch (inflight m)
     ≤ count is_fetch (effects m))%nat →
    (count is_fetch (effects (run m evs)) + length (timers (run m evs))
     ≤ count is_fetch (effects m) + length (timers m) + count is_enqueue evs)%nat
    ∧ (count is_upload (effects (run m evs)) + count is_await_fetch (inflight (run m evs))
       ≤ count is_fetch (effects (run m evs)))%nat).
  { clear. intros evs. induction evs as [|e evs IH]; intros m Hm.
    - simpl. split; lia.
    - rewrite run_cons. destruct (step_accounting m e) as [H1 H2].
      destruct (IH (step m e) (H2 Hm)) as [H3 H4].
      split; [|done]. simpl. lia. }
  destruct (Hgen evs new_manager) as [H1 H2]; [simpl; lia|].
  simpl in H1. split; lia.
Qed.

(** X14: an empty diff is never handed to the transport: every upload the
    manager has ever started carries at least one record. *)
Theorem uploads_are_never_empty (evs : list event) (d : snapshot) :
  CallUpload d ∈ effects (run new_manager evs) → d ≠ ∅.
Proof.
  assert (Hgen : ∀ evs m,
    Forall (fun x => ∀ d', x = CallUpload d' → d' ≠ ∅) (effects m) →
    Forall (fun x => ∀ d', x = CallUpload d' → d' ≠ ∅) (effects (run m evs))).
  { clear. intros evs. induction evs as [|e evs IH]; intros m Hm; [done|].
    rewrite run_cons. apply IH.
    step_cases m e; try done; apply Forall_app; split; try done;
      constructor; try constructor; intros d' Heq; try discriminate.
    by injection Heq as <-. }
  intros Hin. specialize (Hgen evs new_manager (Forall_nil_2 _)).
  rewrite Forall_forall in Hgen. by apply (Hgen _ Hin).
Qed.

(** X20: the queue is always the tail end of what was enqueued: whatever
    the events, it holds the most recent enqueued changes, stamped as at
    their enqueue and in that order; no change is reordered, duplicated or
    altered, and changes only leave from the front, all at once. *)
Theorem queue_is_suffix_of_arrivals (evs : list event) :
  changeQueue (run new_manager evs) `suffix_of` arrivals evs.
Proof.
  induction evs as [|e evs IH] using rev_ind.
  - simpl. apply suffix_nil.
  - rewrite run_snoc.
    assert (Harr : arrivals (evs ++ [e]) = arrivals evs ++ arrivals [e])
      by apply omap_app.
    rewrite Harr. set (m := run new_manager evs) in *.
    destruct (is_enqueue e) eqn:He.
    + destruct e as [c now| | |]; try discriminate. simpl.
      destruct (isSyncing m) eqn:Hs.
      * rewrite queueChange_syncing by done. by apply suffix_app.
      * rewrite queueChange_idle by done. by apply suffix_app.
    + assert (arrivals [e] = []) as -> by (by destruct e).
      rewrite app_nil_r.
      step_cases m e; try done; try (subst e; discriminate); apply suffix_nil.
Qed.

Lemma run_burst_syncing (burst : list (change * Z)) (m : manager) :
  isSyncing m = true →
  run m (burst_events burst)
  = with_changeQueue (changeQueue m ++ arrivals (burst_events burst)) m.
Proof.
  revert m. induction burst as [|[c now] burst IH]; intros m Hs.
  - simpl. rewrite app_nil_r. by destruct m.
  - change (run m (burst_events ((c, now) :: burst)))
      with (run (queueChange device c now m) (burst_events burst)).
    rewrite queueChange_syncing by done.
    rewrite IH by done. simpl. unfold with_changeQueue. simpl.
    by rewrite <- app_assoc.
Qed.

(** X15: changes enqueued while the fetch is awaited are part of the same
    cycle. The merge reads the queue when the fetch settles, so the upload
    started then is the diff of the merge over the queue as it was when the
    timer fired followed by everything enqueued since. *)
Theorem arrivals_during_fetch_are_merged (m : manager) (i : nat) (due now : Z)
    (burst : list (change * Z)) (remote base : snapshot) (now' : Z) :
  isSyncing m = false → inflight m = [] →
  timers m !! i = Some due → due ≤ now →
  hasChanges (mergeChanges base remote (changeQueue m ++ arrivals (burst_events burst)))
    remote = true →
  calculateDiff (mergeChanges base remote (changeQueue m ++ arrivals (burst_events burst)))
    remote ≠ ∅ →
  effects (run m (TimerFires i now :: burst_events burst
                  ++ [FetchSettles 0 (Some remote) (Some base) now']))
  = effects m
    ++ [CallFetch;
        CallUpload
          (calculateDiff
             (mergeChanges base remote (changeQueue m ++ arrivals (burst_events burst)))
             remote)].
Proof.
  intros Hs Hi Ht Hle Hh Hd.
  rewrite run_cons, run_snoc, (timer_fires_idle device hasChanges m i due now) by done.
  rewrite run_burst_syncing by done. simpl. rewrite Hi. simpl.
  match goal with |- effects (resume 0 ?b ?st) = _ =>
    destruct (resume_afterFetch_cases hasChanges 0 (Some remote) (Some base) now' st)
      as [(r&b'&Hr&Hb&_&_&->)|[(e&[Hr|Hb]&_)|(r&b'&Hr&Hb&Hor&_)]]
  end; try done.
  - simplify_eq. simpl. by rewrite <- app_assoc.
  - simplify_eq. simpl in Hor. destruct Hor; congruence.
Qed.

End CycleExtras.

Lemma stale_changes_are_discarded_witness :
  changeQueue (step_D (run_D new_manager busy)
                 (FetchSettles 0 (Some remote_newer) (Some ∅) 5100)) = []
  ∧ effects (step_D (run_D new_manager busy)
               (FetchSettles 0 (Some remote_newer) (Some ∅) 5100))
    = effects (run_D new_manager busy)
  ∧ lastSyncTimestamp (step_D (run_D new_manager busy)
                         (FetchSettles 0 (Some remote_newer) (Some ∅) 5100)) = 5100
  ∧ isSyncing (step_D (run_D new_manager busy)
                 (FetchSettles 0 (Some remote_newer) (Some ∅) 5100)) = false.
Proof.
  apply (stale_changes_are_discarded "D" hasChanges_diff (run_D new_manager busy) 0
           remote_newer ∅ 5100).
  - reflexivity.
  - assert (Hq : changeQueue (run_D new_manager busy)
                 = [Change "a" "p" 0 "D"; Change "b" "q" 1000 "D"]) by reflexivity.
    rewrite Hq. repeat apply Forall_cons_2; [| |apply Forall_nil_2].
    + exists (Change "a" "r" 9000 "R"). split; [reflexivity|left; simpl; lia].
    + exists (Change "b" "s" 9000 "R"). split; [reflexivity|left; simpl; lia].
Defined.

Lemma queue_carries_own_device_witness :
  deviceId (Change "b" "q" 1000 "D") = "D".
Proof.
  apply (queue_carries_own_device "D" hasChanges_diff busy).
  assert (Hq : changeQueue (run_D new_manager busy)
               = [Change "a" "p" 0 "D"; Change "b" "q" 1000 "D"]) by reflexivity.
  rewrite Hq. apply list_elem_of_further, list_elem_of_here.
Defined.


Lemma timestamp_moves_only_on_commit_witness :
  changeQueue (step_D (run_D new_manager busy)
                 (FetchSettles 0 (Some remote_newer) (Some ∅) 5100)) = []
  ∧ isSyncing (step_D (run_D new_manager busy)
                 (FetchSettles 0 (Some remote_newer) (Some ∅) 5100)) = false.
Proof.
  apply (timestamp_moves_only_on_commit "D" hasChanges_diff).
  vm_compute. intros H. discriminate H.
Defined.

Lemma uploads_are_never_empty_witness :
  ({["a" := Change "a" "p" 0 "D"]} : snapshot) ≠ ∅.
Proof.
  apply (uploads_are_never_empty "D" hasChanges_diff upload_race).
  assert (He : effects (run_D new_manager upload_race)
               = [CallFetch; CallUpload {["a" := Change "a" "p" 0 "D"]}])
    by (vm_compute; reflexivity).
  rewrite He. apply list_elem_of_further, list_elem_of_here.
Defined.

Lemma arrivals_during_fetch_are_merged_witness :
  effects (run_D (run_D new_manager [Enqueue edit_a 0])
             (TimerFires 0 5000 :: burst_events [(edit_b, 5050)]
              ++ [FetchSettles 0 (Some ∅) (Some ∅) 5100]))
  = effects (run_D new_manager [Enqueue edit_a 0])
    ++ [CallFetch;
        CallUpload
          (calculateDiff
             (mergeChanges ∅ ∅
                (changeQueue (run_D new_manager [Enqueue edit_a 0])
                 ++ arrivals "D" (burst_events [(edit_b, 5050)])))
             ∅)].
Proof.
  apply (arrivals_during_fetch_are_merged "D" hasChanges_diff
           (run_D new_manager [Enqueue edit_a 0]) 0 5000 5000 [(edit_b, 5050)] ∅ ∅ 5100).
  - reflexivity.
  - reflexivity.
  - reflexivity.
  - lia.
  - vm_compute. reflexivity.
  - vm_compute. discriminate.
Defined.

(** ** getDeviceId *)

Lemma truthy_spec (s : string) : truthy s = true ↔ s ≠ "".
Proof.
  unfold truthy. rewrite negb_true_iff. apply String.eqb_neq.
Qed.

Section IdentityProperties.
Variable randomUUID : nat -> string.

Abbreviation getDeviceId := (getDeviceId randomUUID).
Abbreviation getDeviceId_repeat := (getDeviceId_repeat randomUUID).

(** What a call leaves in [this._deviceId] is what it returns. *)
Lemma getDeviceId_caches (s : identity) :
  _deviceId (snd (getDeviceId s)) = Some (fst (getDeviceId s)).
Proof.
  unfold getDeviceId. simpl.
  destruct (_deviceId s) as [d|] eqn:Hc; [destruct (truthy d) eqn:Ht|]; simpl.
  - by rewrite Hc.
  - unfold assignDeviceId. by destruct (stored_or_fresh randomUUID s).
  - unfold assignDeviceId. by destruct (stored_or_fresh randomUUID s).
Qed.

Lemma getDeviceId_cached (s : identity) (d : string) :
  _deviceId s = Some d → d ≠ "" → getDeviceId s = (d, s).
Proof.
  intros Hc Hd. unfold getDeviceId. rewrite Hc.
  apply truthy_spec in Hd. rewrite Hd. simpl. by rewrite Hc.
Qed.

Lemma getDeviceId_repeat_S (n : nat) (s : identity) :
  getDeviceId_repeat (S n) s
  = (fst (getDeviceId s) :: fst (getDeviceId_repeat n (snd (getDeviceId s))),
     snd (getDeviceId_repeat n (snd (getDeviceId s)))).
Proof.
  change (getDeviceId_repeat (S n) s)
    with (let (d, s1) := getDeviceId s in
          let (ds, s2) := getDeviceId_repeat n s1 in (d :: ds, s2)).
  destruct (getDeviceId s) as [d s1]. simpl.
  by destruct (getDeviceId_repeat n s1).
Qed.

(** X16: the device id is stable. Once a call has returned a non-empty id,
    every later call returns that same id and changes nothing: the field,
    the storage and the number of identifiers drawn stay as they are. *)
Theorem getDeviceId_stable (s : identity) (n : nat) :
  fst (getDeviceId s) ≠ "" →
  getDeviceId_repeat n (snd (getDeviceId s))
  = (replicate n (fst (getDeviceId s)), snd (getDeviceId s)).
Proof.
  intros Hd. pose proof (getDeviceId_caches s) as Hc.
  remember (fst (getDeviceId s)) as d eqn:Heqd.
  remember (snd (getDeviceId s)) as s1 eqn:Heqs1.
  clear Heqd Heqs1.
  induction n as [|n IH]; [done|].
  rewrite getDeviceId_repeat_S, (getDeviceId_cached s1 d Hc Hd). simpl.
  by rewrite IH.
Qed.

(** X17: a stored id is reused. On the first call of an instance, a
    non-empty id found in [localStorage] is returned as it is: no
    identifier is drawn and the storage holds what it held. *)
Theorem getDeviceId_reuses_stored (s : identity) (v : string) :
  _deviceId s = None → localStorage s !! "deviceId" = Some v → v ≠ "" →
  getDeviceId s = (v, Identity (Some v) (localStorage s) (uuids_drawn s)).
Proof.
  intros Hc Hv Hne. unfold getDeviceId. rewrite Hc. simpl.
  unfold assignDeviceId, stored_or_fresh. rewrite Hv.
  apply truthy_spec in Hne. rewrite Hne. simpl.
  by rewrite insert_id.
Qed.

(** X18: a missing id is generated and stored, and an empty one counts as
    missing. On the first call of an instance whose [localStorage] has no
    id, or holds the empty string, exactly one identifier is drawn; it is
    returned, kept in the field and written to [localStorage]. *)
Theorem getDeviceId_generates (s : identity) :
  _deviceId s = None →
  localStorage s !! "deviceId" = None ∨ localStorage s !! "deviceId" = Some "" →
  getDeviceId s
  = (randomUUID (uuids_drawn s),
     Identity (Some (randomUUID (uuids_drawn s)))
       (<["deviceId" := randomUUID (uuids_drawn s)]> (localStorage s))
       (S (uuids_drawn s))).
Proof.
  intros Hc Hv. unfold getDeviceId. rewrite Hc. simpl.
  unfold assignDeviceId, stored_or_fresh.
  destruct Hv as [->| ->]; done.
Qed.

(** X19: the id survives a restart. After the first call of an instance
    has returned a non-empty id, [localStorage] holds that id, and a new
    instance over the same storage returns it without drawing an
    identifier or touching the storage. *)
Theorem getDeviceId_survives_restart (s : identity) (n : nat) :
  _deviceId s = None → fst (getDeviceId s) ≠ "" →
  localStorage (snd (getDeviceId s)) !! "deviceId" = Some (fst (getDeviceId s))
  ∧ getDeviceId (Identity None (localStorage (snd (getDeviceId s))) n)
    = (fst (getDeviceId s),
       Identity (Some (fst (getDeviceId s))) (localStorage (snd (getDeviceId s))) n).
Proof.
  intros Hc Hd.
  assert (Hst : localStorage (snd (getDeviceId s)) !! "deviceId"
                = Some (fst (getDeviceId s))).
  { unfold getDeviceId. rewrite Hc. simpl.
    unfold assignDeviceId. destruct (stored_or_fresh randomUUID s) as [d k].
    simpl. apply lookup_insert_eq. }
  split; [done|].
  remember (fst (getDeviceId s)) as d eqn:Heqd.
  remember (snd (getDeviceId s)) as s1 eqn:Heqs1.
  clear Heqd Heqs1.
  unfold getDeviceId. simpl.
  unfold assignDeviceId, stored_or_fresh. simpl. rewrite Hst.
  apply truthy_spec in Hd. rewrite Hd. simpl.
  by rewrite insert_id.
Qed.

End IdentityProperties.

Lemma getDeviceId_stable_witness :
  getDeviceId_repeat toy_uuid 3 (snd (getDeviceId toy_uuid fresh_browser))
  = (replicate 3 (fst (getDeviceId toy_uuid fresh_browser)),
     snd (getDeviceId toy_uuid fresh_browser)).
Proof.
  apply (getDeviceId_stable toy_uuid fresh_browser 3).
  vm_compute. intros H. discriminate H.
Defined.

Lemma getDeviceId_reuses_stored_witness :
  getDeviceId toy_uuid returning_browser
  = ("dev-1", Identity (Some "dev-1") (localStorage returning_browser)
                (uuids_drawn returning_browser)).
Proof.
  apply (getDeviceId_reuses_stored toy_uuid returning_browser "dev-1").
  - reflexivity.
  - reflexivity.
  - intros H. discriminate H.
Defined.

Lemma getDeviceId_generates_witness :
  getDeviceId toy_uuid blank_browser
  = (toy_uuid (uuids_drawn blank_browser),
     Identity (Some (toy_uuid (uuids_drawn blank_browser)))
       (<["deviceId" := toy_uuid (uuids_drawn blank_browser)]>
          (localStorage blank_browser))
       (S (uuids_drawn blank_browser))).
Proof.
  apply (getDeviceId_generates toy_uuid blank_browser).
  - reflexivity.
  - right. reflexivity.
Defined.

Lemma getDeviceId_survives_restart_witness :
  localStorage (snd (getDeviceId toy_uuid fresh_browser)) !! "deviceId"
  = Some (fst (getDeviceId toy_uuid fresh_browser))
  ∧ getDeviceId toy_uuid
      (Identity None (localStorage (snd (getDeviceId toy_uuid fresh_browser))) 7)
    = (fst (getDeviceId toy_uuid fresh_browser),
       Identity (Some (fst (getDeviceId toy_uuid fresh_browser)))
         (localStorage (snd (getDeviceId toy_uuid fresh_browser))) 7).
Proof.
  apply (getDeviceId_survives_restart toy_uuid fresh_browser 7).
  - reflexivity.
  - vm_compute. intros H. discriminate H.
Defined.
